(** * ctapipe: Hillas parametrisation and ground/tilted frame transforms

    A shallow embedding of [ctapipe/reco/hillas.py] and
    [ctapipe/coordinates/ground_frames.py].

    The Python code computes on numpy [float64] values.  The arithmetic that
    the two Hillas routines use is abstracted in the class [Scalar], which
    has two instances:

    - [R_scalar], exact real arithmetic, for the algebraic properties
      (equalities that hold "in real arithmetic");
    - [f64_scalar], IEEE 754 binary64 arithmetic (Rocq's primitive floats),
      for the properties about NaN, division by zero and rounding.

    The routines are written once, over the class, so both readings run
    the same code. *)

From Stdlib Require Import Floats.
From Stdlib Require Import List Bool ZArith PeanoNat Lia.
From Stdlib Require Import Reals Lra Psatz.
Import ListNotations.

Set Implicit Arguments.

(** ** Scalars *)

Declare Scope num_scope.
Delimit Scope num_scope with num.

Class Scalar (A : Type) : Type := {
  zero : A;
  one : A;
  two : A;
  four : A;
  add : A -> A -> A;
  sub : A -> A -> A;
  mul : A -> A -> A;
  div : A -> A -> A;
  np_sqrt : A -> A;
  np_abs : A -> A
}.

Infix "+" := add : num_scope.
Infix "-" := sub : num_scope.
Infix "*" := mul : num_scope.
Infix "/" := div : num_scope.

(** Exact arithmetic.  [Rdiv] and [sqrt] are total in the standard library
    ([x / 0 = 0], [sqrt x = 0] for negative [x]); numpy returns NaN or an
    infinity there.  The theorems stated on this instance therefore carry
    the side conditions (non-zero denominators, non-negative radicands)
    under which both agree. *)
#[export] Instance R_scalar : Scalar R := {
  zero := 0%R;
  one := 1%R;
  two := 2%R;
  four := 4%R;
  add := Rplus;
  sub := Rminus;
  mul := Rmult;
  div := Rdiv;
  np_sqrt := R_sqrt.sqrt;
  np_abs := Rabs
}.

(** binary64 arithmetic: numpy's [float64] with the default error state,
    in which a division by zero or an invalid operation issues a warning and
    returns an infinity or NaN; it does not raise. *)
#[export] Instance f64_scalar : Scalar float := {
  zero := 0%float;
  one := 1%float;
  two := 2%float;
  four := 4%float;
  add := PrimFloat.add;
  sub := PrimFloat.sub;
  mul := PrimFloat.mul;
  div := PrimFloat.div;
  np_sqrt := PrimFloat.sqrt;
  np_abs := PrimFloat.abs
}.

(** The functions of the C math library that [hillas_parameters_2] calls
    through numpy.  Primitive floats offer none of them, so only the exact
    instance exists. *)
Class Libm (A : Type) : Type := {
  np_hypot : A -> A -> A;
  np_arctan2 : A -> A -> A;
  np_arcsin : A -> A;
  np_pi : A
}.

(** [arctan2 y x]: the angle of the point [(x, y)], in [(-PI, PI]]. *)
Definition Rarctan2 (y x : R) : R :=
  if Rlt_dec 0 x then atan (y / x)
  else if Rlt_dec x 0 then
    if Rle_dec 0 y then (atan (y / x) + PI)%R else (atan (y / x) - PI)%R
  else if Rlt_dec 0 y then (PI / 2)%R
  else if Rlt_dec y 0 then (- (PI / 2))%R
  else 0%R.

#[export] Instance R_libm : Libm R := {
  np_hypot := fun x y => R_sqrt.sqrt (x * x + y * y)%R;
  np_arctan2 := Rarctan2;
  np_arcsin := asin;
  np_pi := PI
}.

(** ** One-dimensional arrays

    The inputs of the Hillas routines and the coordinate arrays of the
    frames are modelled as one-dimensional arrays, that is, lists; arrays
    of higher dimension are outside the model. *)

Section NdArray.
Context {A : Type} `{Scalar A}.

Definition ndarray := list A.

(** Element-wise combination of two arrays of one shape. *)
Fixpoint zip_with (f : A -> A -> A) (u v : ndarray) : ndarray :=
  match u, v with
  | a :: u', b :: v' => f a b :: zip_with f u' v'
  | _, _ => []
  end.

(** [u * v], [u + v] on arrays. *)
Definition vmul (u v : ndarray) : ndarray := zip_with mul u v.
Definition vadd (u v : ndarray) : ndarray := zip_with add u v.
Definition vsub (u v : ndarray) : ndarray := zip_with sub u v.

(** [c * v], [v * c], [v / c], [c - v], [v - c] and [v + c] for a scalar
    [c]. *)
Definition smul (c : A) (v : ndarray) : ndarray := map (fun a => (c * a)%num) v.
Definition vmuls (v : ndarray) (c : A) : ndarray := map (fun a => (a * c)%num) v.
Definition vdivs (v : ndarray) (c : A) : ndarray := map (fun a => (a / c)%num) v.
Definition ssub (c : A) (v : ndarray) : ndarray := map (fun a => (c - a)%num) v.
Definition vsubs (v : ndarray) (c : A) : ndarray := map (fun a => (a - c)%num) v.
Definition vadds (v : ndarray) (c : A) : ndarray := map (fun a => (a + c)%num) v.

(** [np.sum]: numpy adds the elements of an array shorter than eight
    from left to right to a zero accumulator; longer arrays are added
    pairwise in blocks, which differs only in rounding. *)
Definition np_sum (v : ndarray) : A := fold_left add v zero.

(** [u.shape == v.shape] for one-dimensional arrays. *)
Definition same_shape (u v : ndarray) : bool := length u =? length v.
End NdArray.

(** ** hillas.py *)

Module Hillas.

(** The dict returned by [hillas_parameters]. *)
Record params (A : Type) : Type := mk_params {
  p_x : A;
  p_y : A;
  p_a : A;
  p_b : A;
  p_width : A;
  p_length : A;
  p_miss : A;
  p_r : A;
  p_azwidth : A
}.

Section Code.
Context {A : Type} `{Scalar A}.
Local Open Scope num_scope.

(** [hillas_parameters(x, y, s)] on one-dimensional arrays.  [None] is
    the [AssertionError] of the two shape assertions. *)
Definition hillas_parameters (x y s : list A) : option (params A) :=
  if negb (same_shape x s) then None
  else if negb (same_shape y s) then None
  else
    (* Compute image moments *)
    let _s := np_sum s in
    let m_x := np_sum (vmul s x) / _s in
    let m_y := np_sum (vmul s y) / _s in
    let m_xx := np_sum (vmul (vmul s x) x) / _s in
    let m_yy := np_sum (vmul (vmul s y) y) / _s in
    let m_xy := np_sum (vmul (vmul s x) y) / _s in
    (* Compute major axis line representation y = a * x + b *)
    let S_xx := m_xx - m_x * m_x in
    let S_yy := m_yy - m_y * m_y in
    let S_xy := m_xy - m_x * m_y in
    let d := S_yy - S_xx in
    let temp := d * d + four * S_xy * S_xy in
    let a := (d + np_sqrt temp) / (two * S_xy) in
    let b := m_y - a * m_x in
    (* Compute Hillas parameters *)
    let width_2 := (S_yy + a * a * S_xx - two * a * S_xy) / (one + a * a) in
    let width := np_sqrt width_2 in
    let length_2 := (S_xx + a * a * S_yy + two * a * S_xy) / (one + a * a) in
    let length := np_sqrt length_2 in
    let miss := np_abs (b / (one + a * a)) in
    let r := np_sqrt (m_x * m_x + m_y * m_y) in
    (* Compute azwidth by transforming to (p, q) coordinates *)
    let sin_theta := m_y / r in
    let cos_theta := m_x / r in
    let q := vadd (vmuls (ssub m_x x) sin_theta) (vmuls (vsubs y m_y) cos_theta) in
    let m_q := np_sum (vmul s q) / _s in
    let m_qq := np_sum (vmul (vmul s q) q) / _s in
    let azwidth_2 := m_qq - m_q * m_q in
    let azwidth := np_sqrt azwidth_2 in
    Some {| p_x := m_x; p_y := m_y; p_a := a; p_b := b;
            p_width := width; p_length := length; p_miss := miss;
            p_r := r; p_azwidth := azwidth |}.
End Code.

(** The dict returned by [hillas_parameters_2]. *)
Record params_2 (A : Type) : Type := mk_params_2 {
  size : A;
  cx : A;
  cy : A;
  length : A;
  width : A;
  distance : A;
  azwidth : A;
  psi : A;
  phi : A;
  alpha : A
}.

(** The local variables of [hillas_parameters_2] that are computed with
    [+ - * /] and [np.sqrt] alone, that is, everything above the
    [np.hypot] call and the [# angles] block.  [miss] is one of them: the
    function uses it for [alpha] and does not return it. *)
Record locals_2 (A : Type) : Type := mk_locals_2 {
  l_size : A;
  l_moms : list A;
  l_vx2 : A;
  l_vy2 : A;
  l_vxy : A;
  l_dd : A;
  l_zz : A;
  l_miss : A;
  l_width : A;
  l_length : A;
  l_azwidth : A
}.

Section Code2.
Context {A : Type} `{Scalar A}.
Local Open Scope num_scope.

(** [moms[i]] *)
Definition at_ (moms : list A) (i : nat) : A := nth i moms zero.

(** The body of [hillas_parameters_2] down to [azwidth], without the
    [distance] line.  [v ** 2] is written [v * v]: the correctly rounded
    square. *)
Definition hillas_parameters_2_locals (pix_x pix_y image : list A)
  : option (locals_2 A) :=
  if negb (same_shape pix_x image) then None
  else if negb (same_shape pix_y image) then None
  else
    let size := np_sum image in
    let momdata :=
      map (fun row => vmul row image)
          [pix_x; pix_y; vmul pix_x pix_x; vmul pix_y pix_y; vmul pix_x pix_y] in
    let moms := map (fun row => np_sum row / size) momdata in
    (* calculate variances *)
    let vx2 := at_ moms 2 - at_ moms 0 * at_ moms 0 in
    let vy2 := at_ moms 3 - at_ moms 1 * at_ moms 1 in
    let vxy := at_ moms 4 - at_ moms 0 * at_ moms 1 in
    (* common factors *)
    let dd := vy2 - vx2 in
    let zz := np_sqrt (dd * dd + four * (vxy * vxy)) in
    (* miss *)
    let uu := one + dd / zz in
    let vv := two - uu in
    let miss :=
      np_sqrt ((uu * (at_ moms 0 * at_ moms 0) + vv * (at_ moms 1 * at_ moms 1)) / two
               - at_ moms 0 * at_ moms 1 * two * vxy / zz) in
    (* parameters *)
    let width := np_sqrt (vx2 + vy2 - zz) in
    let length := np_sqrt (vx2 + vy2 + zz) in
    let azwidth := np_sqrt (at_ moms 2 + at_ moms 3 - zz) in
    Some {| l_size := size; l_moms := moms; l_vx2 := vx2; l_vy2 := vy2;
            l_vxy := vxy; l_dd := dd; l_zz := zz; l_miss := miss;
            l_width := width; l_length := length; l_azwidth := azwidth |}.

Context `{Libm A}.

(** [hillas_parameters_2(pix_x, pix_y, image)]: the locals above, then
    [distance] and the angles. *)
Definition hillas_parameters_2 (pix_x pix_y image : list A)
  : option (params_2 A) :=
  match hillas_parameters_2_locals pix_x pix_y image with
  | None => None
  | Some l =>
    let moms := l_moms l in
    let vxy := l_vxy l in
    let dd := l_dd l in
    let zz := l_zz l in
    let miss := l_miss l in
    let distance := np_hypot (at_ moms 0) (at_ moms 1) in
    (* angles *)
    let tanpsi_numer := (dd + zz) * at_ moms 1 + two * vxy * at_ moms 0 in
    let tanpsi_denom := (two * vxy * at_ moms 1) - (dd - zz) * at_ moms 0 in
    let psi := np_pi / two + np_arctan2 tanpsi_numer tanpsi_denom in
    let alpha := np_arcsin (miss / distance) in
    let phi := np_arctan2 (at_ moms 1) (at_ moms 0) in
    Some {| size := l_size l; cx := at_ moms 0; cy := at_ moms 1;
            length := l_length l; width := l_width l;
            distance := distance; azwidth := l_azwidth l;
            psi := psi; phi := phi; alpha := alpha |}
  end.
End Code2.

(** An array of [n] NaNs. *)
Definition nans (n : nat) : list float := repeat nan n.

(** A binary64 number that is NaN or an infinity. *)
Definition non_finite (x : float) : Prop :=
  Prim2SF x = S754_nan \/ exists b, Prim2SF x = S754_infinity b.

End Hillas.

(** ** Weighted moments in exact arithmetic

    The vocabulary in which the exact properties of the two Hillas routines
    are stated.  The sums the Python code takes with [np.sum] over products
    of arrays are, in exact arithmetic, weighted sums of a function of the
    pixel position. *)

Module Moments.

Local Open Scope R_scope.

(** The sum of [s_i * f x_i y_i] over the pixels. *)
Fixpoint wsum (f : R -> R -> R) (s x y : list R) : R :=
  match s, x, y with
  | si :: s', xi :: x', yi :: y' => si * f xi yi + wsum f s' x' y'
  | _, _, _ => 0
  end.

(** The weighted mean of [f]. *)
Definition mean (f : R -> R -> R) (s x y : list R) : R :=
  wsum f s x y / wsum (fun _ _ => 1) s x y.

Definition m10 : list R -> list R -> list R -> R := mean (fun a _ => a).
Definition m01 : list R -> list R -> list R -> R := mean (fun _ b => b).
Definition m20 : list R -> list R -> list R -> R := mean (fun a _ => a * a).
Definition m02 : list R -> list R -> list R -> R := mean (fun _ b => b * b).
Definition m11 : list R -> list R -> list R -> R := mean (fun a b => a * b).

(** The central second moments: [S_xx], [S_yy], [S_xy] of
    [hillas_parameters] and [vx2], [vy2], [vxy] of [hillas_parameters_2]. *)
Definition var_x (s x y : list R) : R := m20 s x y - m10 s x y * m10 s x y.
Definition var_y (s x y : list R) : R := m02 s x y - m01 s x y * m01 s x y.
Definition cov_xy (s x y : list R) : R := m11 s x y - m10 s x y * m01 s x y.

(** [np.sqrt(temp)] of [hillas_parameters], [zz] of [hillas_parameters_2]. *)
Definition spread (Sxx Syy Sxy : R) : R :=
  sqrt ((Syy - Sxx) * (Syy - Sxx) + 4 * Sxy * Sxy).

(** The slope [a] of the major axis, and [width_2], [length_2], as
    [hillas_parameters] computes them from the central moments. *)
Definition slope (Sxx Syy Sxy : R) : R :=
  (Syy - Sxx + spread Sxx Syy Sxy) / (2 * Sxy).
Definition width_2 (Sxx Syy Sxy : R) : R :=
  let a := slope Sxx Syy Sxy in
  (Syy + a * a * Sxx - 2 * a * Sxy) / (1 + a * a).
Definition length_2 (Sxx Syy Sxy : R) : R :=
  let a := slope Sxx Syy Sxy in
  (Sxx + a * a * Syy + 2 * a * Sxy) / (1 + a * a).

(** The coordinate [q] of [hillas_parameters] for the pixel [(a, b)]: the
    offset from the centroid [(mx, my)] across the line from the origin to
    the centroid, [r] being the distance of the centroid. *)
Definition azimuthal_q (mx my r a b : R) : R :=
  (mx - a) * (my / r) + (b - my) * (mx / r).

(** A valid image: three arrays of one length, intensities that are not
    negative, and a positive total intensity. *)
Definition valid_image (x y s : list R) : Prop :=
  List.length x = List.length s /\ List.length y = List.length s
  /\ Forall (fun w => 0 <= w) s /\ 0 < np_sum s.

End Moments.

(** ** ground_frames.py *)

Module GroundFrames.

Local Open Scope R_scope.

(** A two-dimensional [ndarray], stored by rows. *)
Definition matrix := list (list R).

Definition np_zeros (rows cols : nat) : matrix := repeat (repeat 0 cols) rows.

Fixpoint update {T : Type} (i : nat) (f : T -> T) (l : list T) : list T :=
  match l, i with
  | [], _ => []
  | a :: l', O => f a :: l'
  | a :: l', S i' => a :: update i' f l'
  end.

(** [m[i][j] = v] and [m[i][j]]. *)
Definition set_item (m : matrix) (i j : nat) (v : R) : matrix :=
  update i (update j (fun _ => v)) m.
Definition item (m : matrix) (i j : nat) : R := nth j (nth i m []) 0.

(** [get_shower_trans_matrix(azimuth, altitude)], angles in radians. *)
Definition get_shower_trans_matrix (azimuth altitude : R) : matrix :=
  let cos_z := sin altitude in
  let sin_z := cos altitude in
  let cos_az := cos azimuth in
  let sin_az := sin azimuth in
  let trans := np_zeros 3 3 in
  let trans := set_item trans 0 0 (cos_z * cos_az) in
  let trans := set_item trans 1 0 sin_az in
  let trans := set_item trans 2 0 (sin_z * cos_az) in
  let trans := set_item trans 0 1 (- cos_z * sin_az) in
  let trans := set_item trans 1 1 cos_az in
  let trans := set_item trans 2 1 (- sin_z * sin_az) in
  let trans := set_item trans 0 2 (- sin_z) in
  let trans := set_item trans 1 2 0 in
  let trans := set_item trans 2 2 cos_z in
  trans.

(** The pointing direction attribute, already converted to radians. *)
Record pointing : Type := mk_pointing { alt : R; az : R }.

(** A [GroundFrame] coordinate: a Cartesian representation (three arrays of
    one shape) and the frame attribute, [None] by default. *)
Record GroundFrame : Type := mk_ground {
  g_x : list R;
  g_y : list R;
  g_z : list R;
  g_pointing_direction : option pointing
}.

(** Modelled from the spec: [PlanarRepresentation], imported from
    [ctapipe/coordinates/representation.py], which is not among the
    sources.  The spec describes a tilted-frame point set as an "ordered
    pair of equal-length numeric arrays (x, y)". *)
Record PlanarRepresentation : Type := mk_planar {
  rep_x : list R;
  rep_y : list R
}.

(** A [TiltedGroundFrame] coordinate: a planar representation and the
    pointing direction of the tilted plane. *)
Record TiltedGroundFrame : Type := mk_tilted {
  t_data : PlanarRepresentation;
  t_pointing_direction : pointing
}.

(** [tilted_coord.x] and [tilted_coord.y]. *)
Definition t_x (t : TiltedGroundFrame) : list R := rep_x (t_data t).
Definition t_y (t : TiltedGroundFrame) : list R := rep_y (t_data t).

(** [ground_to_tilted(ground_coord, tilted_coord)]: the result is
    [tilted_coord]'s frame realised with the new representation. *)
Definition ground_to_tilted (ground_coord : GroundFrame)
    (tilted_coord : TiltedGroundFrame) : TiltedGroundFrame :=
  let x_grd := g_x ground_coord in
  let y_grd := g_y ground_coord in
  let z_grd := g_z ground_coord in
  let altitude := alt (t_pointing_direction tilted_coord) in
  let azimuth := az (t_pointing_direction tilted_coord) in
  let trans := get_shower_trans_matrix azimuth altitude in
  let x_tilt :=
    vadd (vadd (smul (item trans 0 0) x_grd) (smul (item trans 0 1) y_grd))
         (smul (item trans 0 2) z_grd) in
  let y_tilt :=
    vadd (vadd (smul (item trans 1 0) x_grd) (smul (item trans 1 1) y_grd))
         (smul (item trans 1 2) z_grd) in
  let representation := {| rep_x := x_tilt; rep_y := y_tilt |} in
  {| t_data := representation;
     t_pointing_direction := t_pointing_direction tilted_coord |}.

(** [tilted_to_ground(tilted_coord, ground_coord)]. *)
Definition tilted_to_ground (tilted_coord : TiltedGroundFrame)
    (ground_coord : GroundFrame) : GroundFrame :=
  let x_tilt := t_x tilted_coord in
  let y_tilt := t_y tilted_coord in
  let altitude := alt (t_pointing_direction tilted_coord) in
  let azimuth := az (t_pointing_direction tilted_coord) in
  let trans := get_shower_trans_matrix azimuth altitude in
  let x_grd := vadd (smul (item trans 0 0) x_tilt) (smul (item trans 1 0) y_tilt) in
  let y_grd := vadd (smul (item trans 0 1) x_tilt) (smul (item trans 1 1) y_tilt) in
  let z_grd := vadd (smul (item trans 0 2) x_tilt) (smul (item trans 1 2) y_tilt) in
  {| g_x := x_grd; g_y := y_grd; g_z := z_grd;
     g_pointing_direction := g_pointing_direction ground_coord |}.

(** [GroundFrame()]: the frame that [transform_to(GroundFrame)] targets. *)
Definition GroundFrame_default : GroundFrame :=
  {| g_x := []; g_y := []; g_z := []; g_pointing_direction := None |}.

(** [project_to_ground(tilt_system)].  The division is the exact one; it
    is meaningful when [trans[2][2]] is not zero. *)
Definition project_to_ground (tilt_system : TiltedGroundFrame) : GroundFrame :=
  let ground_system := tilted_to_ground tilt_system GroundFrame_default in
  let x_initial := g_x ground_system in
  let y_initial := g_y ground_system in
  let z_initial := g_z ground_system in
  let trans := get_shower_trans_matrix (az (t_pointing_direction tilt_system))
                                       (alt (t_pointing_direction tilt_system)) in
  let x_projected :=
    vsub x_initial (vdivs (smul (item trans 2 0) z_initial) (item trans 2 2)) in
  let y_projected :=
    vsub y_initial (vdivs (smul (item trans 2 1) z_initial) (item trans 2 2)) in
  {| g_x := x_projected; g_y := y_projected;
     g_z := map (fun _ => 0) x_projected;
     g_pointing_direction := None |}.

(** The divisor of [project_to_ground]. *)
Definition project_divisor (p : pointing) : R :=
  item (get_shower_trans_matrix (az p) (alt p)) 2 2.

(** Matrix algebra used to state orthonormality. *)
Definition column (m : matrix) (j : nat) : list R := map (fun row => nth j row 0) m.
Definition transpose (m : matrix) : matrix :=
  map (column m) (seq 0 (List.length (nth 0 m []))).
Definition dot (u v : list R) : R := np_sum (vmul u v).
Definition matmul (a b : matrix) : matrix :=
  map (fun row => map (fun j => dot row (column b j))
                      (seq 0 (List.length (nth 0 b [])))) a.
Definition identity3 : matrix := [[1; 0; 0]; [0; 1; 0]; [0; 0; 1]].

(** The determinant of a 3x3 matrix, by the first row. *)
Definition det3 (m : matrix) : R :=
  item m 0 0 * (item m 1 1 * item m 2 2 - item m 1 2 * item m 2 1)
  - item m 0 1 * (item m 1 0 * item m 2 2 - item m 1 2 * item m 2 0)
  + item m 0 2 * (item m 1 0 * item m 2 1 - item m 1 1 * item m 2 0).

(** The component of each ground point along the pointing axis (the third
    row of the matrix), which [ground_to_tilted] drops. *)
Definition plane_offset (p : pointing) (g : GroundFrame) : list R :=
  let trans := get_shower_trans_matrix (az p) (alt p) in
  vadd (vadd (smul (item trans 2 0) (g_x g)) (smul (item trans 2 1) (g_y g)))
       (smul (item trans 2 2) (g_z g)).

(** A ground point set lies in the tilted plane of [p] when every point is
    orthogonal to the pointing axis. *)
Definition in_tilted_plane (p : pointing) (g : GroundFrame) : Prop :=
  Forall (fun d => d = 0) (plane_offset p g).

(** The three coordinate arrays of a Cartesian representation have one
    shape. *)
Definition cartesian_shape (g : GroundFrame) : Prop :=
  List.length (g_x g) = List.length (g_y g) /\
  List.length (g_y g) = List.length (g_z g).

Definition planar_shape (t : TiltedGroundFrame) : Prop :=
  List.length (t_x t) = List.length (t_y t).

End GroundFrames.

Unset Implicit Arguments.

(** * Properties of the frame transforms *)

Section GroundFramesProperties.
Import GroundFrames.
Local Open Scope R_scope.

Ltac arrays :=
  unfold vadd, vsub, smul, vdivs;
  cbn [map zip_with add sub mul div R_scalar].

(** The nine assignments of [get_shower_trans_matrix], row by row. *)
Lemma trans_entries (azimuth altitude : R) :
  get_shower_trans_matrix azimuth altitude =
  [[sin altitude * cos azimuth; - sin altitude * sin azimuth; - cos altitude];
   [sin azimuth; cos azimuth; 0];
   [cos altitude * cos azimuth; - cos altitude * sin azimuth; sin altitude]].
Proof. reflexivity. Qed.

Lemma sin_cos_sq (x : R) : sin x * sin x + cos x * cos x = 1.
Proof. generalize (sin2_cos2 x). unfold Rsqr. lra. Qed.

(** Point-wise content of the two round trips. *)
Section Pointwise.
Variables al a : R.
Let s := sin al.
Let c := cos al.
Let S := sin a.
Let C := cos a.

Lemma unit_al : s * s + c * c = 1.
Proof. apply sin_cos_sq. Qed.

Lemma unit_a : S * S + C * C = 1.
Proof. apply sin_cos_sq. Qed.

Lemma embed_then_tilt (u v : R) :
  s * C * (s * C * u + S * v) + - s * S * (- s * S * u + C * v)
    + - c * (- c * u + 0 * v) = u
  /\ S * (s * C * u + S * v) + C * (- s * S * u + C * v)
    + 0 * (- c * u + 0 * v) = v.
Proof.
  pose proof unit_al as Hz. pose proof unit_a as Ha.
  pose proof (f_equal (Rmult (s * s * u)) Ha).
  pose proof (f_equal (Rmult u) Hz).
  pose proof (f_equal (Rmult v) Ha).
  split; nra.
Qed.

Lemma tilt_then_embed (x y z : R) :
  c * C * x + - c * S * y + s * z = 0 ->
  s * C * (s * C * x + - s * S * y + - c * z) + S * (S * x + C * y + 0 * z) = x
  /\ - s * S * (s * C * x + - s * S * y + - c * z) + C * (S * x + C * y + 0 * z) = y
  /\ - c * (s * C * x + - s * S * y + - c * z) + 0 * (S * x + C * y + 0 * z) = z.
Proof.
  intros Hp. pose proof unit_al as Hz. pose proof unit_a as Ha.
  repeat split.
  - pose proof (f_equal (Rmult x) Ha).
    pose proof (f_equal (Rmult (x * C * C)) Hz).
    pose proof (f_equal (Rmult (S * C * y)) Hz).
    pose proof (f_equal (Rmult (c * C)) Hp). nra.
  - pose proof (f_equal (Rmult y) Ha).
    pose proof (f_equal (Rmult (y * S * S)) Hz).
    pose proof (f_equal (Rmult (S * C * x)) Hz).
    pose proof (f_equal (Rmult (c * S)) Hp). nra.
  - pose proof (f_equal (Rmult z) Hz).
    pose proof (f_equal (Rmult s) Hp). nra.
Qed.

Lemma embedded_offset (u v : R) :
  c * C * (s * C * u + S * v) + - c * S * (- s * S * u + C * v)
    + s * (- c * u + 0 * v) = 0.
Proof.
  pose proof unit_a as Ha.
  pose proof (f_equal (Rmult (c * s * u)) Ha). nra.
Qed.
End Pointwise.

(** Tilted coordinates survive the embedding into the ground frame. *)
Lemma tilted_roundtrip (t : TiltedGroundFrame) (g : GroundFrame) :
  planar_shape t -> ground_to_tilted (tilted_to_ground t g) t = t.
Proof.
  destruct t as [[tx ty] [al a]]. unfold planar_shape, t_x, t_y.
  cbn [t_data rep_x rep_y]. intros Hlen.
  unfold ground_to_tilted, tilted_to_ground, t_x, t_y.
  cbn [t_data rep_x rep_y t_pointing_direction g_x g_y g_z alt az].
  rewrite trans_entries. unfold item. cbn [nth].
  enough (E : forall tx ty, List.length tx = List.length ty ->
    let x_grd := vadd (smul (sin al * cos a) tx) (smul (sin a) ty) in
    let y_grd := vadd (smul (- sin al * sin a) tx) (smul (cos a) ty) in
    let z_grd := vadd (smul (- cos al) tx) (smul 0 ty) in
    vadd (vadd (smul (sin al * cos a) x_grd) (smul (- sin al * sin a) y_grd))
         (smul (- cos al) z_grd) = tx
    /\ vadd (vadd (smul (sin a) x_grd) (smul (cos a) y_grd)) (smul 0 z_grd) = ty).
  { destruct (E tx ty Hlen) as [Ex Ey]. cbv zeta in Ex, Ey.
    rewrite Ex, Ey. reflexivity. }
  clear. induction tx as [|u tx IH]; intros [|v ty] Hlen; try discriminate.
  - split; reflexivity.
  - injection Hlen as Hlen. destruct (IH ty Hlen) as [Ix Iy].
    destruct (embed_then_tilt al a u v) as [Px Py].
    cbv zeta in *. arrays. split; f_equal; assumption.
Qed.

(** A ground point set in the tilted plane survives the projection onto
    the plane followed by the embedding. *)
Lemma ground_roundtrip (g : GroundFrame) (t : TiltedGroundFrame) :
  cartesian_shape g ->
  in_tilted_plane (t_pointing_direction t) g ->
  tilted_to_ground (ground_to_tilted g t) g = g.
Proof.
  destruct g as [gx gy gz pd]. destruct t as [[tx ty] [al a]].
  unfold cartesian_shape, in_tilted_plane, plane_offset, ground_to_tilted,
    tilted_to_ground, t_x, t_y.
  cbn [t_data rep_x rep_y t_pointing_direction g_x g_y g_z g_pointing_direction alt az].
  rewrite trans_entries. unfold item. cbn [nth].
  intros [Hxy Hyz] Hpl.
  enough (E : forall gx gy gz,
    List.length gx = List.length gy -> List.length gy = List.length gz ->
    Forall (fun d => d = 0)
      (vadd (vadd (smul (cos al * cos a) gx) (smul (- cos al * sin a) gy))
            (smul (sin al) gz)) ->
    let x_tilt := vadd (vadd (smul (sin al * cos a) gx) (smul (- sin al * sin a) gy))
                       (smul (- cos al) gz) in
    let y_tilt := vadd (vadd (smul (sin a) gx) (smul (cos a) gy)) (smul 0 gz) in
    vadd (smul (sin al * cos a) x_tilt) (smul (sin a) y_tilt) = gx /\
    vadd (smul (- sin al * sin a) x_tilt) (smul (cos a) y_tilt) = gy /\
    vadd (smul (- cos al) x_tilt) (smul 0 y_tilt) = gz).
  { destruct (E gx gy gz Hxy Hyz Hpl) as (Ix & Iy & Iz).
    cbv zeta in Ix, Iy, Iz. rewrite Ix, Iy, Iz. reflexivity. }
  clear. induction gx as [|x gx IH]; intros [|y gy] [|z gz] Hxy Hyz Hpl;
    try discriminate.
  - repeat split.
  - injection Hxy as Hxy. injection Hyz as Hyz.
    revert Hpl. arrays. intros Hpl. inversion Hpl as [|? ? Hp Hrest]; subst.
    destruct (IH gy gz Hxy Hyz Hrest) as (Ix & Iy & Iz).
    destruct (tilt_then_embed al a x y z Hp) as (Px & Py & Pz).
    repeat split; f_equal; assumption.
Qed.

(** X3: the embedding of a tilted point set lies in the tilted plane: the
    hypothesis of [ground_roundtrip] describes exactly the image of
    [tilted_to_ground]. *)
Lemma embedding_in_tilted_plane (t : TiltedGroundFrame) (g : GroundFrame) :
  planar_shape t ->
  in_tilted_plane (t_pointing_direction t) (tilted_to_ground t g).
Proof.
  destruct t as [[tx ty] [al a]]. unfold planar_shape, in_tilted_plane, plane_offset,
    tilted_to_ground, t_x, t_y.
  cbn [t_data rep_x rep_y t_pointing_direction g_x g_y g_z alt az].
  rewrite trans_entries. unfold item. cbn [nth]. intros Hlen.
  revert ty Hlen. induction tx as [|u tx IH]; intros [|v ty] Hlen; try discriminate.
  - constructor.
  - injection Hlen as Hlen. specialize (IH ty Hlen). revert IH. arrays. intros IH.
    constructor; [ apply embedded_offset | exact IH ].
Qed.

(** Where the pointing is not horizontal, a ground point lies in the
    tilted plane exactly when its height is the one the plane fixes for
    its [x] and [y]: [z = - (trans[2][0] * x + trans[2][1] * y) / trans[2][2]]. *)
Lemma in_tilted_plane_height (p : pointing) (g : GroundFrame) :
  cartesian_shape g ->
  project_divisor p <> 0 ->
  let trans := get_shower_trans_matrix (az p) (alt p) in
  in_tilted_plane p g <->
  g_z g = vdivs (ssub 0 (vadd (smul (item trans 2 0) (g_x g))
                              (smul (item trans 2 1) (g_y g))))
                (item trans 2 2).
Proof.
  destruct g as [gx gy gz pd]. destruct p as [al a].
  unfold cartesian_shape, in_tilted_plane, plane_offset, project_divisor.
  cbn [g_x g_y g_z alt az].
  rewrite trans_entries. unfold item. cbn [nth].
  intros [Hxy Hyz] Hd. cbv zeta.
  revert gy gz Hxy Hyz.
  induction gx as [|x gx IH]; intros [|y gy] [|z gz] Hxy Hyz; try discriminate.
  - split; [ reflexivity | constructor ].
  - injection Hxy as Hxy. injection Hyz as Hyz.
    specialize (IH gy gz Hxy Hyz). revert IH.
    unfold ssub. arrays. intros IH. split.
    + intros Hpl. inversion Hpl as [|? ? Hp Hrest]; subst.
      f_equal; [ | apply IH; exact Hrest ].
      apply Rmult_eq_reg_r with (sin al); [ | exact Hd ].
      transitivity (0 - (cos al * cos a * x + - cos al * sin a * y));
        [ lra | field; exact Hd ].
    + intros E. injection E as Ez Erest.
      constructor; [ | apply IH; exact Erest ].
      rewrite Ez. field. exact Hd.
Qed.

(** C6: for every azimuth and altitude the matrix of
    [get_shower_trans_matrix] is orthonormal: its transpose times itself is
    the identity, and so is the product in the other order, so the
    transpose is its inverse. *)
Theorem trans_matrix_orthonormal (azimuth altitude : R) :
  matmul (transpose (get_shower_trans_matrix azimuth altitude))
         (get_shower_trans_matrix azimuth altitude) = identity3
  /\ matmul (get_shower_trans_matrix azimuth altitude)
            (transpose (get_shower_trans_matrix azimuth altitude)) = identity3.
Proof.
  rewrite trans_entries.
  pose proof (sin_cos_sq azimuth) as Ha. pose proof (sin_cos_sq altitude) as Hz.
  pose proof (f_equal (Rmult (sin azimuth * cos azimuth)) Hz) as Hz1.
  pose proof (f_equal (Rmult (sin altitude * cos altitude)) Ha) as Ha1.
  unfold matmul, transpose, column, dot, np_sum, vmul, identity3.
  cbn [List.length nth seq map zip_with fold_left].
  cbn [add mul zero R_scalar].
  split; repeat (f_equal; try nra).
Qed.

(** C7: round trip.  A ground point set that lies in the tilted plane is
    returned unchanged by [ground_to_tilted] followed by
    [tilted_to_ground], for every pointing direction; and a tilted point
    set is returned unchanged by [tilted_to_ground] followed by
    [ground_to_tilted]. *)
Theorem ground_tilted_roundtrip (g : GroundFrame) (t : TiltedGroundFrame) :
  cartesian_shape g ->
  planar_shape t ->
  in_tilted_plane (t_pointing_direction t) g ->
  tilted_to_ground (ground_to_tilted g t) g = g
  /\ ground_to_tilted (tilted_to_ground t g) t = t.
Proof.
  intros Hg Ht Hpl. split.
  - apply ground_roundtrip; assumption.
  - apply tilted_roundtrip; assumption.
Qed.

Lemma ground_tilted_roundtrip_witness :
  let t := {| t_data := {| rep_x := [1]; rep_y := [2] |};
              t_pointing_direction := {| alt := 0; az := 0 |} |} in
  let g := {| g_x := [0]; g_y := [2]; g_z := [-1];
              g_pointing_direction := None |} in
  tilted_to_ground (ground_to_tilted g t) g = g
  /\ ground_to_tilted (tilted_to_ground t g) t = t.
Proof.
  cbv zeta. apply ground_tilted_roundtrip.
  - split; reflexivity.
  - reflexivity.
  - unfold in_tilted_plane, plane_offset.
    cbn [t_pointing_direction g_x g_y g_z alt az].
    rewrite trans_entries. unfold item. cbn [nth]. arrays.
    rewrite sin_0, cos_0. constructor; [ lra | constructor ].
Defined.

(** The divisor of [project_to_ground] is the sine of the altitude. *)
Lemma project_divisor_sin (p : pointing) : project_divisor p = sin (alt p).
Proof. reflexivity. Qed.

(** X5: where the divisor is not zero, [project_to_ground] moves every embedded
    point along the pointing axis (the third row of the matrix) onto the
    ground: with [lam = z / trans[2][2]] the projected point is the
    embedded point minus [lam] times the axis, and its height is zero. *)
Lemma project_to_ground_along_axis (t : TiltedGroundFrame) :
  planar_shape t ->
  project_divisor (t_pointing_direction t) <> 0 ->
  let p := t_pointing_direction t in
  let trans := get_shower_trans_matrix (az p) (alt p) in
  let g := tilted_to_ground t GroundFrame_default in
  let lam := vdivs (g_z g) (project_divisor p) in
  g_x (project_to_ground t) = vsub (g_x g) (smul (item trans 2 0) lam)
  /\ g_y (project_to_ground t) = vsub (g_y g) (smul (item trans 2 1) lam)
  /\ g_z (project_to_ground t) = vsub (g_z g) (smul (item trans 2 2) lam).
Proof.
  destruct t as [[tx ty] [al a]].
  unfold planar_shape, project_divisor, project_to_ground, tilted_to_ground, t_x, t_y.
  cbn [t_data rep_x rep_y t_pointing_direction g_x g_y g_z alt az].
  rewrite trans_entries. unfold item. cbn [nth].
  intros Hlen Hd. cbv zeta.
  revert ty Hlen. induction tx as [|u tx IH]; intros [|v ty] Hlen; try discriminate.
  - repeat split.
  - injection Hlen as Hlen. destruct (IH ty Hlen) as (Ix & Iy & Iz).
    revert Ix Iy Iz. arrays. intros Ix Iy Iz.
    repeat split; (f_equal; [ field; exact Hd | assumption ]).
Qed.

(** C2 (as amended): the divisor of [project_to_ground] is [sin altitude].
    It is zero exactly when the altitude is an integer multiple of [PI];
    among the altitudes between -90 and 90 degrees that is the horizontal
    pointing, altitude 0, alone.  At altitude 90 degrees the divisor is 1. *)
Theorem project_divisor_zero_iff (p : pointing) :
  (project_divisor p = 0 <-> exists k : Z, alt p = IZR k * PI)
  /\ (- (PI / 2) <= alt p <= PI / 2 -> (project_divisor p = 0 <-> alt p = 0))
  /\ (alt p = PI / 2 -> project_divisor p = 1).
Proof.
  rewrite project_divisor_sin. repeat split.
  - apply sin_eq_0_0.
  - apply sin_eq_0_1.
  - intros Hs. destruct (Rtotal_order (alt p) 0) as [Hlt | [Heq | Hgt]].
    + assert (sin (alt p) < 0) by (apply sin_lt_0_var; lra). lra.
    + exact Heq.
    + assert (0 < sin (alt p)) by (apply sin_gt_0; lra). lra.
  - intros ->. apply sin_0.
  - intros ->. apply sin_PI2.
Qed.

(** C2 as stated fails in both directions: with the telescope pointing at
    the zenith the divisor is 1, and with a horizontal pointing, which is
    not vertical, it is 0. *)
Lemma project_divisor_vertical_counterexample :
  project_divisor {| alt := PI / 2; az := 0 |} <> 0
  /\ project_divisor {| alt := 0; az := 0 |} = 0
  /\ 0 <> PI / 2.
Proof.
  rewrite !project_divisor_sin. cbn [alt].
  rewrite sin_PI2, sin_0. pose proof PI_RGT_0. repeat split; lra.
Qed.

End GroundFramesProperties.

(** * The result of [hillas_parameters_2] in terms of its locals *)

Section HillasGeneric.
Context {A : Type} {SA : Scalar A} {LA : Libm A}.
Import Hillas.

Lemma hillas_parameters_2_of_locals (x y s : list A) (l : locals_2 A) :
  hillas_parameters_2_locals x y s = Some l ->
  exists h, hillas_parameters_2 x y s = Some h
    /\ size h = l_size l
    /\ cx h = at_ (l_moms l) 0 /\ cy h = at_ (l_moms l) 1
    /\ width h = l_width l /\ length h = l_length l
    /\ azwidth h = l_azwidth l
    /\ distance h = np_hypot (cx h) (cy h)
    /\ phi h = np_arctan2 (cy h) (cx h).
Proof.
  intros E. unfold hillas_parameters_2. rewrite E.
  eexists. split; [ reflexivity | ]. repeat split.
Qed.
End HillasGeneric.

(** * Exact properties of the Hillas routines *)

Section HillasExact.
Import Hillas Moments.
Local Open Scope R_scope.

Lemma fold_left_Rplus (v : list R) (acc : R) :
  fold_left Rplus v acc = acc + fold_left Rplus v 0.
Proof.
  revert acc. induction v as [|a v IH]; intros acc; cbn [fold_left].
  - lra.
  - rewrite (IH (acc + a)), (IH (0 + a)). lra.
Qed.

Lemma np_sum_cons (a : R) (v : list R) : np_sum (a :: v) = a + np_sum v.
Proof.
  unfold np_sum. cbn [fold_left zero add R_scalar]. rewrite fold_left_Rplus. lra.
Qed.

Section Moments.
Variables s x y : list R.
Hypothesis Hx : List.length x = List.length s.
Hypothesis Hy : List.length y = List.length s.

Ltac by_lists :=
  clear; intros Hx Hy; revert x y Hx Hy;
  induction s as [|si s' IH]; intros [|xi x'] [|yi y'] Hx Hy; try discriminate;
  [ reflexivity
  | injection Hx as Hx; injection Hy as Hy;
    unfold vmul, vadd, vmuls, ssub, vsubs in *; cbn [zip_with map wsum];
    rewrite !np_sum_cons; rewrite (IH x' y' Hx Hy);
    cbn [add sub mul R_scalar]; ring ].

Lemma sum_s : np_sum s = wsum (fun _ _ => 1) s x y.
Proof. revert Hx Hy. by_lists. Qed.
Lemma sum_sx : np_sum (vmul s x) = wsum (fun a _ => a) s x y.
Proof. revert Hx Hy. by_lists. Qed.
Lemma sum_sy : np_sum (vmul s y) = wsum (fun _ b => b) s x y.
Proof. revert Hx Hy. by_lists. Qed.
Lemma sum_sxx : np_sum (vmul (vmul s x) x) = wsum (fun a _ => a * a) s x y.
Proof. revert Hx Hy. by_lists. Qed.
Lemma sum_syy : np_sum (vmul (vmul s y) y) = wsum (fun _ b => b * b) s x y.
Proof. revert Hx Hy. by_lists. Qed.
Lemma sum_sxy : np_sum (vmul (vmul s x) y) = wsum (fun a b => a * b) s x y.
Proof. revert Hx Hy. by_lists. Qed.
Lemma sum_xs : np_sum (vmul x s) = wsum (fun a _ => a) s x y.
Proof. revert Hx Hy. by_lists. Qed.
Lemma sum_ys : np_sum (vmul y s) = wsum (fun _ b => b) s x y.
Proof. revert Hx Hy. by_lists. Qed.
Lemma sum_xxs : np_sum (vmul (vmul x x) s) = wsum (fun a _ => a * a) s x y.
Proof. revert Hx Hy. by_lists. Qed.
Lemma sum_yys : np_sum (vmul (vmul y y) s) = wsum (fun _ b => b * b) s x y.
Proof. revert Hx Hy. by_lists. Qed.
Lemma sum_xys : np_sum (vmul (vmul x y) s) = wsum (fun a b => a * b) s x y.
Proof. revert Hx Hy. by_lists. Qed.
Lemma sum_sq (mx my st ct : R) :
  np_sum (vmul s (vadd (vmuls (ssub mx x) st) (vmuls (vsubs y my) ct)))
  = wsum (fun a b => (mx - a) * st + (b - my) * ct) s x y.
Proof. revert Hx Hy. by_lists. Qed.
Lemma sum_sqq (mx my st ct : R) :
  np_sum (vmul (vmul s (vadd (vmuls (ssub mx x) st) (vmuls (vsubs y my) ct)))
               (vadd (vmuls (ssub mx x) st) (vmuls (vsubs y my) ct)))
  = wsum (fun a b => ((mx - a) * st + (b - my) * ct) * ((mx - a) * st + (b - my) * ct))
         s x y.
Proof. revert Hx Hy. by_lists. Qed.
End Moments.

Lemma same_shape_true (u v : list R) :
  List.length u = List.length v -> same_shape u v = true.
Proof. intros E. unfold same_shape. rewrite E. apply Nat.eqb_refl. Qed.

Lemma hillas_parameters_fields (x y s : list R) :
  List.length x = List.length s -> List.length y = List.length s ->
  exists p, hillas_parameters x y s = Some p
    /\ p_x p = m10 s x y /\ p_y p = m01 s x y
    /\ p_a p = slope (var_x s x y) (var_y s x y) (cov_xy s x y)
    /\ p_b p = m01 s x y - p_a p * m10 s x y
    /\ p_width p = sqrt (width_2 (var_x s x y) (var_y s x y) (cov_xy s x y))
    /\ p_length p = sqrt (length_2 (var_x s x y) (var_y s x y) (cov_xy s x y))
    /\ p_miss p = Rabs (p_b p / (1 + p_a p * p_a p))
    /\ p_r p = sqrt (m10 s x y * m10 s x y + m01 s x y * m01 s x y)
    /\ p_azwidth p =
       sqrt (mean (fun a b => azimuthal_q (m10 s x y) (m01 s x y) (p_r p) a b
                              * azimuthal_q (m10 s x y) (m01 s x y) (p_r p) a b) s x y
             - mean (azimuthal_q (m10 s x y) (m01 s x y) (p_r p)) s x y
               * mean (azimuthal_q (m10 s x y) (m01 s x y) (p_r p)) s x y).
Proof.
  intros Hx Hy. unfold hillas_parameters.
  rewrite (same_shape_true _ _ Hx), (same_shape_true _ _ Hy). cbn [negb].
  eexists. split; [ reflexivity | ].
  cbn [p_x p_y p_a p_b p_width p_length p_miss p_r p_azwidth].
  rewrite (sum_sq s x y Hx Hy), (sum_sqq s x y Hx Hy).
  rewrite (sum_s s x y Hx Hy), (sum_sx s x y Hx Hy), (sum_sy s x y Hx Hy),
    (sum_sxx s x y Hx Hy), (sum_syy s x y Hx Hy), (sum_sxy s x y Hx Hy).
  repeat split; reflexivity.
Qed.

Lemma hillas_parameters_2_locals_fields (x y s : list R) :
  List.length x = List.length s -> List.length y = List.length s ->
  exists l, hillas_parameters_2_locals x y s = Some l
    /\ l_size l = np_sum s
    /\ l_moms l = [m10 s x y; m01 s x y; m20 s x y; m02 s x y; m11 s x y]
    /\ l_vx2 l = var_x s x y /\ l_vy2 l = var_y s x y /\ l_vxy l = cov_xy s x y
    /\ l_zz l = spread (var_x s x y) (var_y s x y) (cov_xy s x y)
    /\ l_width l = sqrt (l_vx2 l + l_vy2 l - l_zz l)
    /\ l_length l = sqrt (l_vx2 l + l_vy2 l + l_zz l)
    /\ l_azwidth l = sqrt (m20 s x y + m02 s x y - l_zz l)
    /\ l_miss l =
       sqrt ((((1 + (l_vy2 l - l_vx2 l) / l_zz l) * (m10 s x y * m10 s x y)
               + (2 - (1 + (l_vy2 l - l_vx2 l) / l_zz l)) * (m01 s x y * m01 s x y)) / 2
             - m10 s x y * m01 s x y * 2 * l_vxy l / l_zz l)).
Proof.
  intros Hx Hy. unfold hillas_parameters_2_locals.
  rewrite (same_shape_true _ _ Hx), (same_shape_true _ _ Hy). cbn [negb].
  eexists. split; [ reflexivity | ].
  cbn [l_size l_moms l_vx2 l_vy2 l_vxy l_zz l_width l_length l_azwidth l_miss map at_ nth].
  rewrite (sum_xs s x y Hx Hy), (sum_ys s x y Hx Hy),
    (sum_xxs s x y Hx Hy), (sum_yys s x y Hx Hy), (sum_xys s x y Hx Hy).
  rewrite (sum_s s x y Hx Hy).
  repeat split; try reflexivity.
  unfold spread, var_x, var_y, cov_xy. cbn [add sub mul div np_sqrt four R_scalar]. f_equal. unfold m10, m20, m02, m01, m11, mean. ring.
Qed.

Lemma wsum_ext (f g : R -> R -> R) (s x y : list R) :
  (forall a b, f a b = g a b) -> wsum f s x y = wsum g s x y.
Proof.
  intros E. revert x y. induction s as [|si s' IH]; intros [|xi x'] [|yi y']; 
    cbn [wsum]; try reflexivity. rewrite E, IH. reflexivity.
Qed.

Lemma wsum_nonneg (f : R -> R -> R) (s x y : list R) :
  Forall (fun w => 0 <= w) s -> (forall a b, 0 <= f a b) -> 0 <= wsum f s x y.
Proof.
  intros Hs Hf. revert x y. induction Hs as [|si s' Hsi Hs IH]; intros [|xi x'] [|yi y'];
    cbn [wsum]; try lra.
  specialize (IH x' y'). specialize (Hf xi yi). nra.
Qed.

Lemma wsum_translate (f : R -> R -> R) (s x y : list R) (dx dy : R) :
  wsum f s (vadds x dx) (vadds y dy) = wsum (fun a b => f (a + dx) (b + dy)) s x y.
Proof.
  revert x y. induction s as [|si s' IH]; intros [|xi x'] [|yi y'];
    cbn [wsum vadds map]; try reflexivity.
  fold (vadds x' dx). fold (vadds y' dy). rewrite IH. reflexivity.
Qed.

(** weighted sum of a polynomial of degree two in the position *)
Lemma wsum_poly (c0 c1 c2 c3 c4 c5 : R) (s x y : list R) :
  wsum (fun a b => c0 + c1 * a + c2 * b + c3 * (a * a) + c4 * (a * b) + c5 * (b * b)) s x y
  = c0 * wsum (fun _ _ => 1) s x y + c1 * wsum (fun a _ => a) s x y
    + c2 * wsum (fun _ b => b) s x y + c3 * wsum (fun a _ => a * a) s x y
    + c4 * wsum (fun a b => a * b) s x y + c5 * wsum (fun _ b => b * b) s x y.
Proof.
  revert x y. induction s as [|si s' IH]; intros [|xi x'] [|yi y'];
    cbn [wsum]; try ring. rewrite IH. ring.
Qed.

Section Translation.
Variables (s x y : list R) (dx dy : R).
Hypothesis Hs : wsum (fun _ _ => 1) s x y <> 0.

Let x' := vadds x dx.
Let y' := vadds y dy.

Lemma total_translate : wsum (fun _ _ => 1) s x' y' = wsum (fun _ _ => 1) s x y.
Proof. unfold x', y'. rewrite wsum_translate. reflexivity. Qed.

Ltac moment c0 c1 c2 c3 c4 c5 :=
  unfold m10, m01, m20, m02, m11, mean; rewrite total_translate;
  unfold x', y'; rewrite wsum_translate;
  rewrite (wsum_ext _ (fun a b => c0 + c1 * a + c2 * b + c3 * (a * a) + c4 * (a * b) + c5 * (b * b)))
    by (intros; ring);
  rewrite wsum_poly; field; exact Hs.

Lemma m10_translate : m10 s x' y' = m10 s x y + dx.
Proof. moment dx 1 0 0 0 0. Qed.
Lemma m01_translate : m01 s x' y' = m01 s x y + dy.
Proof. moment dy 0 1 0 0 0. Qed.
Lemma m20_translate : m20 s x' y' = m20 s x y + 2 * dx * m10 s x y + dx * dx.
Proof. moment (dx * dx) (2 * dx) 0 1 0 0. Qed.
Lemma m02_translate : m02 s x' y' = m02 s x y + 2 * dy * m01 s x y + dy * dy.
Proof. moment (dy * dy) 0 (2 * dy) 0 0 1. Qed.
Lemma m11_translate :
  m11 s x' y' = m11 s x y + dx * m01 s x y + dy * m10 s x y + dx * dy.
Proof. moment (dx * dy) dy dx 0 1 0. Qed.

Lemma var_x_translate : var_x s x' y' = var_x s x y.
Proof. unfold var_x. rewrite m20_translate, m10_translate. ring. Qed.
Lemma var_y_translate : var_y s x' y' = var_y s x y.
Proof. unfold var_y. rewrite m02_translate, m01_translate. ring. Qed.
Lemma cov_xy_translate : cov_xy s x' y' = cov_xy s x y.
Proof. unfold cov_xy. rewrite m11_translate, m10_translate, m01_translate. ring. Qed.
End Translation.

(** The covariance matrix of a weighted point set is positive
    semi-definite. *)
Section Covariance.
Variables s x y : list R.
Hypothesis Hw : Forall (fun w => 0 <= w) s.
Hypothesis Hs : 0 < wsum (fun _ _ => 1) s x y.

Lemma quadratic_form_nonneg (al be : R) :
  0 <= al * al * var_x s x y + 2 * al * be * cov_xy s x y + be * be * var_y s x y.
Proof.
  set (ga := - (al * m10 s x y + be * m01 s x y)).
  pose proof (wsum_nonneg (fun a b => (al * a + be * b + ga) * (al * a + be * b + ga))
                s x y Hw) as Hq.
  assert (Hsq : forall a b : R, 0 <= (al * a + be * b + ga) * (al * a + be * b + ga))
    by (intros a b; apply Rle_0_sqr).
  specialize (Hq Hsq). clear Hsq.
  rewrite (wsum_ext _ (fun a b => ga * ga + (2 * al * ga) * a + (2 * be * ga) * b
             + (al * al) * (a * a) + (2 * al * be) * (a * b) + (be * be) * (b * b))) in Hq
    by (intros; ring).
  rewrite wsum_poly in Hq.
  set (M0 := wsum (fun _ _ => 1) s x y) in *.
  assert (E : al * al * var_x s x y + 2 * al * be * cov_xy s x y + be * be * var_y s x y
     = (ga * ga * M0 + 2 * al * ga * wsum (fun a _ => a) s x y
        + 2 * be * ga * wsum (fun _ b => b) s x y
        + al * al * wsum (fun a _ => a * a) s x y
        + 2 * al * be * wsum (fun a b => a * b) s x y
        + be * be * wsum (fun _ b => b * b) s x y) / M0).
  { unfold ga, var_x, var_y, cov_xy, m10, m01, m20, m02, m11, mean. fold M0.
    field. lra. }
  rewrite E. apply Rmult_le_pos; [ exact Hq | left; apply Rinv_0_lt_compat; exact Hs ].
Qed.

Lemma var_x_nonneg : 0 <= var_x s x y.
Proof. pose proof (quadratic_form_nonneg 1 0). lra. Qed.

Lemma var_y_nonneg : 0 <= var_y s x y.
Proof. pose proof (quadratic_form_nonneg 0 1). lra. Qed.

(** Cauchy-Schwarz *)
Lemma cov_xy_bound : cov_xy s x y * cov_xy s x y <= var_x s x y * var_y s x y.
Proof.
  pose proof var_x_nonneg as Hx. pose proof var_y_nonneg as Hy.
  set (A := var_x s x y) in *. set (B := cov_xy s x y) in *. set (C := var_y s x y) in *.
  destruct (Rle_lt_or_eq_dec 0 C Hy) as [Hpos | Hzero].
  - pose proof (quadratic_form_nonneg C (- B)) as Hq. fold A B C in Hq.
    assert (0 <= C * (A * C - B * B)) by lra.
    nra.
  - rewrite <- Hzero in *.
    destruct (Req_dec B 0) as [HB | HB]; [ rewrite HB; lra | ].
    pose proof (quadratic_form_nonneg 1 (- (A + 1) / (2 * B))) as Hq. fold A B C in Hq.
    rewrite <- Hzero in Hq.
    assert (E : 1 * 1 * A + 2 * 1 * (- (A + 1) / (2 * B)) * B
                + - (A + 1) / (2 * B) * (- (A + 1) / (2 * B)) * 0 = -1)
      by (field; exact HB).
    lra.
Qed.

Lemma spread_bound :
  spread (var_x s x y) (var_y s x y) (cov_xy s x y) <= var_x s x y + var_y s x y.
Proof.
  pose proof var_x_nonneg as Hx. pose proof var_y_nonneg as Hy.
  pose proof cov_xy_bound as Hc.
  unfold spread. 
  rewrite <- (sqrt_square (var_x s x y + var_y s x y)) by lra.
  apply sqrt_le_1_alt. nra.
Qed.
End Covariance.

Section PrincipalAxes.
Variables Sxx Syy Sxy : R.
Hypothesis Hxy : Sxy <> 0.

Let z := spread Sxx Syy Sxy.
Let a := slope Sxx Syy Sxy.

Lemma spread_sqr : z * z = (Syy - Sxx) * (Syy - Sxx) + 4 * Sxy * Sxy.
Proof.
  unfold z, spread. apply sqrt_sqrt.
  pose proof (Rle_0_sqr (Syy - Sxx)) as Hd. pose proof (Rle_0_sqr Sxy) as Hs.
  unfold Rsqr in Hd, Hs. lra.
Qed.

Lemma spread_pos : 0 < z.
Proof.
  unfold z, spread. apply sqrt_lt_R0.
  pose proof (Rle_0_sqr (Syy - Sxx)) as Hd. pose proof (Rsqr_pos_lt Sxy Hxy) as Hs.
  unfold Rsqr in Hd, Hs. lra.
Qed.

Lemma slope_sqr_pos : 0 < 1 + a * a.
Proof. pose proof (Rle_0_sqr a) as Ha. unfold Rsqr in Ha. lra. Qed.

Lemma slope_num : a * (2 * Sxy) = Syy - Sxx + z.
Proof. unfold a, slope. fold z. field. exact Hxy. Qed.

Lemma slope_sqr : a * a * (z - (Syy - Sxx)) = Syy - Sxx + z.
Proof.
  pose proof spread_sqr as Hz. pose proof slope_num as Hn.
  apply Rmult_eq_reg_r with (2 * Sxy * (2 * Sxy)); [ | nra ].
  replace (a * a * (z - (Syy - Sxx)) * (2 * Sxy * (2 * Sxy)))
    with ((a * (2 * Sxy)) * (a * (2 * Sxy)) * (z - (Syy - Sxx))) by ring.
  rewrite Hn.
  pose proof (f_equal (Rmult (Syy - Sxx + z)) Hz). nra.
Qed.

Lemma width_2_half : width_2 Sxx Syy Sxy = (Sxx + Syy - z) / 2.
Proof.
  pose proof slope_num as Hn. pose proof slope_sqr as Hq.
  pose proof slope_sqr_pos as Hp.
  unfold width_2. fold a.
  assert (E : Syy + a * a * Sxx - 2 * a * Sxy = (Sxx + Syy - z) / 2 * (1 + a * a)) by nra.
  rewrite E. field. lra.
Qed.

Lemma length_2_half : length_2 Sxx Syy Sxy = (Sxx + Syy + z) / 2.
Proof.
  pose proof slope_num as Hn. pose proof slope_sqr as Hq.
  pose proof slope_sqr_pos as Hp.
  unfold length_2. fold a.
  assert (E : Sxx + a * a * Syy + 2 * a * Sxy = (Sxx + Syy + z) / 2 * (1 + a * a)) by nra.
  rewrite E. field. lra.
Qed.

Lemma slope_den : a * (z - (Syy - Sxx)) = 2 * Sxy.
Proof.
  pose proof spread_sqr as Hz. pose proof slope_num as Hn.
  apply Rmult_eq_reg_r with (2 * Sxy); [ | lra ].
  replace (a * (z - (Syy - Sxx)) * (2 * Sxy))
    with (a * (2 * Sxy) * (z - (Syy - Sxx))) by ring.
  rewrite Hn. clearbody z a. nra.
Qed.

(** The radicand of [miss] in [hillas_parameters_2] is the square of the
    distance from the origin to the line [y = a * x + b] through the
    centroid [(mx, my)]. *)
Lemma axis_distance_sqr (mx my : R) :
  let uu := 1 + (Syy - Sxx) / z in
  let vv := 2 - uu in
  (uu * (mx * mx) + vv * (my * my)) / 2 - mx * my * 2 * Sxy / z
  = (my - a * mx) * (my - a * mx) / (1 + a * a).
Proof.
  pose proof slope_sqr as Hq. pose proof slope_den as Hd.
  pose proof slope_sqr_pos as Hp. pose proof spread_pos as Hz.
  cbv zeta.
  assert (F : (1 + a * a) * (z - (Syy - Sxx)) = 2 * z) by lra.
  assert (Hzd : z - (Syy - Sxx) <> 0) by (intros E; rewrite E in F; lra).
  assert (Hpa : 1 + a * a <> 0) by lra.
  assert (Hz0 : z <> 0) by lra.
  assert (C1 : (2 - (1 + (Syy - Sxx) / z)) / 2 = 1 / (1 + a * a)).
  { rewrite <- (Rmult_1_l (1 / (1 + a * a))).
    replace (1 * (1 / (1 + a * a)))
      with ((z - (Syy - Sxx)) / ((1 + a * a) * (z - (Syy - Sxx))))
      by (field; split; assumption).
    rewrite F. field. exact Hz0. }
  assert (C2 : (1 + (Syy - Sxx) / z) / 2 = a * a / (1 + a * a)).
  { replace ((1 + (Syy - Sxx) / z) / 2) with (1 - (2 - (1 + (Syy - Sxx) / z)) / 2)
      by (field; lra).
    rewrite C1. field. lra. }
  assert (C3 : 2 * Sxy / z = 2 * a / (1 + a * a)).
  { rewrite <- Hd. replace (2 * a / (1 + a * a)) with (2 * a * (1 / (1 + a * a)))
      by (field; lra).
    rewrite <- C1. field. lra. }
  replace ((((1 + (Syy - Sxx) / z) * (mx * mx) + (2 - (1 + (Syy - Sxx) / z)) * (my * my)) / 2
           - mx * my * 2 * Sxy / z))
    with ((1 + (Syy - Sxx) / z) / 2 * (mx * mx)
          + (2 - (1 + (Syy - Sxx) / z)) / 2 * (my * my)
          - mx * my * (2 * Sxy / z)) by (field; lra).
  rewrite C1, C2, C3. field. lra.
Qed.
End PrincipalAxes.

Lemma valid_image_total (x y s : list R) :
  valid_image x y s -> 0 < wsum (fun _ _ => 1) s x y.
Proof.
  intros (Hx & Hy & _ & Hs). rewrite <- (sum_s s x y Hx Hy). exact Hs.
Qed.

Lemma vadds_length (v : list R) (c : R) : List.length (vadds v c) = List.length v.
Proof. apply length_map. Qed.



(** C8 (as amended), in exact arithmetic: translating a valid image by
    [(dx, dy)] leaves the central moments [vx2], [vy2], [vxy] and [zz]
    unchanged, hence [width] and [length] of [hillas_parameters_2], whose
    radicands are not negative; it moves the centroid of both routines by
    [(dx, dy)], and [r], [distance] and [phi] are those of the moved
    centroid.  Where the covariance [vxy] is not zero, so that the slope
    [a] of [hillas_parameters] is not a quotient by zero, [a], [width] and
    [length] of [hillas_parameters] are unchanged too. *)
Theorem hillas_translation (x y s : list R) (dx dy : R) :
  valid_image x y s ->
  exists p p' l l' h h',
    hillas_parameters x y s = Some p
    /\ hillas_parameters (vadds x dx) (vadds y dy) s = Some p'
    /\ hillas_parameters_2_locals x y s = Some l
    /\ hillas_parameters_2_locals (vadds x dx) (vadds y dy) s = Some l'
    /\ hillas_parameters_2 x y s = Some h
    /\ hillas_parameters_2 (vadds x dx) (vadds y dy) s = Some h'
    /\ l_vx2 l' = l_vx2 l /\ l_vy2 l' = l_vy2 l /\ l_vxy l' = l_vxy l
    /\ l_zz l' = l_zz l
    /\ 0 <= l_vx2 l + l_vy2 l - l_zz l
    /\ width h = sqrt (l_vx2 l + l_vy2 l - l_zz l)
    /\ length h = sqrt (l_vx2 l + l_vy2 l + l_zz l)
    /\ width h' = width h /\ length h' = length h
    /\ size h' = size h
    /\ cx h' = cx h + dx /\ cy h' = cy h + dy
    /\ distance h' = np_hypot (cx h + dx) (cy h + dy)
    /\ phi h' = np_arctan2 (cy h + dy) (cx h + dx)
    /\ p_x p' = p_x p + dx /\ p_y p' = p_y p + dy
    /\ p_r p' = sqrt ((p_x p + dx) * (p_x p + dx) + (p_y p + dy) * (p_y p + dy))
    /\ (l_vxy l <> 0 ->
        p_a p' = p_a p
        /\ p_width p = sqrt ((l_vx2 l + l_vy2 l - l_zz l) / 2)
        /\ p_length p = sqrt ((l_vx2 l + l_vy2 l + l_zz l) / 2)
        /\ p_width p' = p_width p /\ p_length p' = p_length p).
Proof.
  intros Hv. pose proof (valid_image_total x y s Hv) as Ht.
  destruct Hv as (Hx & Hy & Hw & Hs).
  assert (Hne : wsum (fun _ _ => 1) s x y <> 0) by lra.
  assert (Hx' : List.length (vadds x dx) = List.length s)
    by (rewrite vadds_length; exact Hx).
  assert (Hy' : List.length (vadds y dy) = List.length s)
    by (rewrite vadds_length; exact Hy).
  destruct (hillas_parameters_fields x y s Hx Hy)
    as (p & Ep & Hpx & Hpy & Hpa & _ & Hpw & Hpl & _ & _ & _).
  destruct (hillas_parameters_fields _ _ s Hx' Hy')
    as (p' & Ep' & Hpx' & Hpy' & Hpa' & _ & Hpw' & Hpl' & _ & Hpr' & _).
  destruct (hillas_parameters_2_locals_fields x y s Hx Hy)
    as (l & El & Hsz & Hmo & Hvx & Hvy & Hvxy & Hzz & Hwid & Hlen & _ & _).
  destruct (hillas_parameters_2_locals_fields _ _ s Hx' Hy')
    as (l' & El' & Hsz' & Hmo' & Hvx' & Hvy' & Hvxy' & Hzz' & Hwid' & Hlen' & _ & _).
  destruct (hillas_parameters_2_of_locals x y s l El)
    as (h & Eh & Hhs & Hcx & Hcy & Hhw & Hhl & _ & _ & _).
  destruct (hillas_parameters_2_of_locals _ _ s l' El')
    as (h' & Eh' & Hhs' & Hcx' & Hcy' & Hhw' & Hhl' & _ & Hdi' & Hph').
  exists p, p', l, l', h, h'.
  pose proof (spread_bound s x y Hw Ht) as Hb.
  rewrite (var_x_translate s x y dx dy Hne), (var_y_translate s x y dx dy Hne),
    (cov_xy_translate s x y dx dy Hne) in *.
  rewrite (m10_translate s x y dx dy Hne) in *.
  rewrite (m01_translate s x y dx dy Hne) in *.
  assert (Ecx : cx h' = cx h + dx)
    by (rewrite Hcx', Hcx, Hmo', Hmo; reflexivity).
  assert (Ecy : cy h' = cy h + dy)
    by (rewrite Hcy', Hcy, Hmo', Hmo; reflexivity).
  assert (Erad : 0 <= l_vx2 l + l_vy2 l - l_zz l)
    by (rewrite Hvx, Hvy, Hzz; lra).
  assert (Eimp : l_vxy l <> 0 ->
                 p_a p' = p_a p
                 /\ p_width p = sqrt ((l_vx2 l + l_vy2 l - l_zz l) / 2)
                 /\ p_length p = sqrt ((l_vx2 l + l_vy2 l + l_zz l) / 2)
                 /\ p_width p' = p_width p /\ p_length p' = p_length p).
  { intros Hc. rewrite Hvxy in Hc.
    repeat split; try congruence.
    - rewrite Hpw, Hvx, Hvy, Hzz.
      rewrite (width_2_half (var_x s x y) (var_y s x y) (cov_xy s x y) Hc).
      reflexivity.
    - rewrite Hpl, Hvx, Hvy, Hzz.
      rewrite (length_2_half (var_x s x y) (var_y s x y) (cov_xy s x y) Hc).
      reflexivity. }
  repeat match goal with |- _ /\ _ => split end;
    try assumption; try congruence.
Qed.

Lemma Rabs_div_pos (b c : R) : 0 < c -> Rabs (b / c) = Rabs b / c.
Proof.
  intros Hc. unfold Rdiv. rewrite Rabs_mult. f_equal.
  apply Rabs_pos_eq. left. apply Rinv_0_lt_compat. exact Hc.
Qed.

(** What [hillas_parameters] returns as [miss]: [|b|] divided by
    [1 + a^2], without a square root. *)
Lemma hillas_parameters_miss (x y s : list R) (p : params R) :
  hillas_parameters x y s = Some p ->
  p_miss p = Rabs (p_b p) / (1 + p_a p * p_a p).
Proof.
  unfold hillas_parameters.
  destruct (negb (same_shape x s)); [ discriminate | ].
  destruct (negb (same_shape y s)); [ discriminate | ].
  intros E. injection E as <-. cbn [p_miss p_a p_b].
  cbn [add sub mul div one np_abs R_scalar].
  apply Rabs_div_pos.
  match goal with |- 0 < 1 + ?a * ?a =>
    pose proof (Rle_0_sqr a) as Ha; unfold Rsqr in Ha; lra
  end.
Qed.

(** What [hillas_parameters_2] computes as [miss]: the distance
    [|b| / sqrt (1 + a^2)] from the origin to the major axis
    [y = a * x + b], for an image whose covariance is not zero. *)
Lemma hillas_parameters_2_miss (x y s : list R) (l : locals_2 R) :
  List.length x = List.length s -> List.length y = List.length s ->
  cov_xy s x y <> 0 ->
  hillas_parameters_2_locals x y s = Some l ->
  let a := slope (var_x s x y) (var_y s x y) (cov_xy s x y) in
  let b := m01 s x y - a * m10 s x y in
  l_miss l = Rabs b / sqrt (1 + a * a).
Proof.
  intros Hx Hy Hc El.
  destruct (hillas_parameters_2_locals_fields x y s Hx Hy)
    as (l0 & El0 & _ & _ & Hvx & Hvy & Hvxy & Hzz & _ & _ & _ & Hmiss).
  rewrite El in El0. injection El0 as <-.
  cbv zeta. rewrite Hmiss, Hzz, Hvx, Hvy, Hvxy.
  pose proof (axis_distance_sqr (var_x s x y) (var_y s x y) (cov_xy s x y) Hc
                (m10 s x y) (m01 s x y)) as Hd.
  cbv zeta in Hd. rewrite Hd.
  pose proof (slope_sqr_pos (var_x s x y) (var_y s x y) (cov_xy s x y)) as Hp.
  rewrite sqrt_div_alt by exact Hp.
  f_equal. apply sqrt_Rsqr_abs.
Qed.

(** [hillas_parameters_2] returns [sqrt 2] times the [width] and [length]
    of [hillas_parameters]: its radicands are twice the eigenvalues of the
    covariance matrix, the halving is missing. *)
Lemma hillas_parameters_2_scale (x y s : list R) (p : params R) (l : locals_2 R) :
  List.length x = List.length s -> List.length y = List.length s ->
  cov_xy s x y <> 0 ->
  hillas_parameters x y s = Some p ->
  hillas_parameters_2_locals x y s = Some l ->
  l_width l = sqrt 2 * p_width p /\ l_length l = sqrt 2 * p_length p.
Proof.
  intros Hx Hy Hc Ep El.
  destruct (hillas_parameters_fields x y s Hx Hy)
    as (p0 & Ep0 & _ & _ & _ & _ & Hpw & Hpl & _).
  rewrite Ep in Ep0. injection Ep0 as <-.
  destruct (hillas_parameters_2_locals_fields x y s Hx Hy)
    as (l0 & El0 & _ & _ & Hvx & Hvy & Hvxy & Hzz & Hwid & Hlen & _).
  rewrite El in El0. injection El0 as <-.
  rewrite Hwid, Hlen, Hpw, Hpl, Hzz, Hvx, Hvy.
  rewrite (width_2_half (var_x s x y) (var_y s x y) (cov_xy s x y) Hc),
    (length_2_half (var_x s x y) (var_y s x y) (cov_xy s x y) Hc).
  rewrite <- !sqrt_mult_alt by lra.
  split; f_equal; field.
Qed.

(** Three unit pixels at (0,0), (0,3) and (3,3), and the same image moved
    by (1,0).  The pixels are not collinear and their covariance is 1. *)
Ltac eval_moment :=
  unfold var_x, var_y, cov_xy, m10, m01, m20, m02, m11, mean;
  cbn [wsum vadds map add R_scalar]; field.

Lemma triangle_valid : valid_image [0; 0; 3] [0; 3; 3] [1; 1; 1].
Proof.
  repeat split.
  - repeat constructor; lra.
  - unfold np_sum. cbn [fold_left add zero R_scalar]. lra.
Qed.

Lemma triangle_moments :
  m10 [1; 1; 1] [0; 0; 3] [0; 3; 3] = 1 /\ m01 [1; 1; 1] [0; 0; 3] [0; 3; 3] = 2
  /\ m20 [1; 1; 1] [0; 0; 3] [0; 3; 3] = 3 /\ m02 [1; 1; 1] [0; 0; 3] [0; 3; 3] = 6
  /\ var_x [1; 1; 1] [0; 0; 3] [0; 3; 3] = 2 /\ var_y [1; 1; 1] [0; 0; 3] [0; 3; 3] = 2
  /\ cov_xy [1; 1; 1] [0; 0; 3] [0; 3; 3] = 1.
Proof. repeat split; eval_moment. Qed.

Lemma triangle_moved_moments :
  m10 [1; 1; 1] (vadds [0; 0; 3] 1) (vadds [0; 3; 3] 0) = 2
  /\ m01 [1; 1; 1] (vadds [0; 0; 3] 1) (vadds [0; 3; 3] 0) = 2
  /\ m20 [1; 1; 1] (vadds [0; 0; 3] 1) (vadds [0; 3; 3] 0) = 6
  /\ m02 [1; 1; 1] (vadds [0; 0; 3] 1) (vadds [0; 3; 3] 0) = 6
  /\ var_x [1; 1; 1] (vadds [0; 0; 3] 1) (vadds [0; 3; 3] 0) = 2
  /\ var_y [1; 1; 1] (vadds [0; 0; 3] 1) (vadds [0; 3; 3] 0) = 2
  /\ cov_xy [1; 1; 1] (vadds [0; 0; 3] 1) (vadds [0; 3; 3] 0) = 1.
Proof. repeat split; eval_moment. Qed.

Lemma spread_221 : spread 2 2 1 = 2.
Proof.
  unfold spread.
  replace ((2 - 2) * (2 - 2) + 4 * 1 * 1) with (2 * 2) by ring.
  apply sqrt_square. lra.
Qed.

Lemma slope_221 : slope 2 2 1 = 1.
Proof. unfold slope. rewrite spread_221. field. Qed.

Lemma sqrt_2_not_2 : sqrt 2 <> 2.
Proof.
  intros E. pose proof (sqrt_sqrt 2 ltac:(lra)) as H. rewrite E in H. lra.
Qed.

Lemma sqrt_distinct (u v : R) : 0 <= u -> 0 <= v -> u <> v -> sqrt u <> sqrt v.
Proof. intros Hu Hv Hne E. apply Hne. apply sqrt_inj; assumption. Qed.

(** What the two routines return for the triangle. *)
Lemma triangle_hillas_parameters :
  exists p,
    hillas_parameters [0; 0; 3] [0; 3; 3] [1; 1; 1] = Some p
    /\ p_a p = 1 /\ p_b p = 1
    /\ p_width p = 1 /\ p_length p = sqrt 3
    /\ p_miss p = 1 / 2 /\ p_azwidth p = sqrt (6 / 5).
Proof.
  destruct triangle_valid as (Hx & Hy & _ & _).
  destruct triangle_moments as (M10 & M01 & M20 & M02 & Vx & Vy & Cxy).
  destruct (hillas_parameters_fields _ _ _ Hx Hy)
    as (p & Ep & _ & _ & Ha & Hb & Hpw & Hpl & _ & Hpr & Hpaz).
  exists p.
  assert (A : p_a p = 1) by (rewrite Ha, Vx, Vy, Cxy; apply slope_221).
  assert (B : p_b p = 1) by (rewrite Hb, A, M10, M01; ring).
  repeat split; try assumption.
  - rewrite Hpw, Vx, Vy, Cxy, width_2_half by lra. rewrite spread_221.
    replace ((2 + 2 - 2) / 2) with 1 by field. apply sqrt_1.
  - rewrite Hpl, Vx, Vy, Cxy, length_2_half by lra. rewrite spread_221.
    f_equal. field.
  - rewrite (hillas_parameters_miss _ _ _ p Ep), A, B, Rabs_R1. field.
  - rewrite Hpaz, Hpr, M10, M01.
    replace (1 * 1 + 2 * 2) with 5 by ring.
    pose proof (sqrt_lt_R0 5 ltac:(lra)) as Hr.
    pose proof (sqrt_sqrt 5 ltac:(lra)) as Hrr.
    unfold mean, azimuthal_q. cbn [wsum]. f_equal.
    generalize dependent (sqrt 5). intros r Hr Hrr.
    transitivity (6 / (r * r)); [ field; lra | rewrite Hrr; reflexivity ].
Qed.

Lemma triangle_hillas_parameters_2 :
  exists l h,
    hillas_parameters_2_locals [0; 0; 3] [0; 3; 3] [1; 1; 1] = Some l
    /\ hillas_parameters_2 [0; 0; 3] [0; 3; 3] [1; 1; 1] = Some h
    /\ width h = sqrt 2 /\ length h = sqrt 6
    /\ l_miss l = 1 / sqrt 2 /\ azwidth h = sqrt 7.
Proof.
  destruct triangle_valid as (Hx & Hy & _ & _).
  destruct triangle_moments as (M10 & M01 & M20 & M02 & Vx & Vy & Cxy).
  destruct (hillas_parameters_2_locals_fields _ _ _ Hx Hy)
    as (l & El & _ & _ & Hvx & Hvy & Hvxy & Hzz & Hwid & Hlen & Haz & _).
  destruct (hillas_parameters_2_of_locals _ _ _ l El)
    as (h & Eh & _ & _ & _ & Hhw & Hhl & Hhaz & _).
  exists l, h.
  rewrite Vx in Hvx. rewrite Vy in Hvy. rewrite Vx, Vy, Cxy, spread_221 in Hzz.
  repeat split; try assumption.
  - rewrite Hhw, Hwid, Hvx, Hvy, Hzz. f_equal. ring.
  - rewrite Hhl, Hlen, Hvx, Hvy, Hzz. f_equal. ring.
  - assert (Hc : cov_xy [1; 1; 1] [0; 0; 3] [0; 3; 3] <> 0) by (rewrite Cxy; lra).
    pose proof (hillas_parameters_2_miss _ _ _ l Hx Hy Hc El) as Hm.
    cbv zeta in Hm. rewrite Hm, Vx, Vy, Cxy, slope_221, M10, M01.
    replace (2 - 1 * 1) with 1 by ring. replace (1 + 1 * 1) with 2 by ring.
    rewrite Rabs_R1. reflexivity.
  - rewrite Hhaz, Haz, M20, M02, Hzz. f_equal. ring.
Qed.

(** C1 (evaluation at a failing input): on the valid image of three unit
    pixels at (0,0), (0,3), (3,3) the two routines return different
    widths (1 and [sqrt 2]), lengths ([sqrt 3] and [sqrt 6]) and azwidths
    ([sqrt (6/5)] and [sqrt 7]); [miss] is 1/2 in [hillas_parameters] and
    [1 / sqrt 2] in [hillas_parameters_2]. *)
Theorem hillas_variants_disagree :
  valid_image [0; 0; 3] [0; 3; 3] [1; 1; 1]
  /\ exists p l h,
       hillas_parameters [0; 0; 3] [0; 3; 3] [1; 1; 1] = Some p
       /\ hillas_parameters_2_locals [0; 0; 3] [0; 3; 3] [1; 1; 1] = Some l
       /\ hillas_parameters_2 [0; 0; 3] [0; 3; 3] [1; 1; 1] = Some h
       /\ p_width p = 1 /\ width h = sqrt 2 /\ p_width p <> width h
       /\ p_length p = sqrt 3 /\ length h = sqrt 6 /\ p_length p <> length h
       /\ p_azwidth p = sqrt (6 / 5) /\ azwidth h = sqrt 7
       /\ p_azwidth p <> azwidth h
       /\ p_miss p = 1 / 2 /\ l_miss l = 1 / sqrt 2 /\ p_miss p <> l_miss l.
Proof.
  split; [ exact triangle_valid | ].
  destruct triangle_hillas_parameters as (p & Ep & _ & _ & Pw & Pl & Pm & Pz).
  destruct triangle_hillas_parameters_2 as (l & h & El & Eh & Hw & Hl & Lm & Hz).
  exists p, l, h.
  pose proof (sqrt_lt_R0 2 ltac:(lra)) as Hs2.
  repeat split; try assumption.
  - rewrite Pw, Hw. intros E.
    apply (sqrt_distinct 1 2); [ lra | lra | lra | rewrite sqrt_1; exact E ].
  - rewrite Pl, Hl. apply sqrt_distinct; lra.
  - rewrite Pz, Hz. apply sqrt_distinct; lra.
  - rewrite Pm, Lm. intros E. apply sqrt_2_not_2.
    assert (H1 : sqrt 2 * (1 / sqrt 2) = 1) by (field; lra).
    rewrite <- E in H1. lra.
Qed.

(** C3 (evaluation at a failing input): for the same triangle the
    covariance is 1 and the major axis is [y = x + 1].
    [hillas_parameters] returns [miss = 1/2], which is [|b| / (1 + a^2)];
    the distance [|b| / sqrt (1 + a^2)] from the origin to the axis is
    [1 / sqrt 2], and that is the [miss] of [hillas_parameters_2]. *)
Theorem hillas_parameters_miss_not_distance :
  exists p l,
    hillas_parameters [0; 0; 3] [0; 3; 3] [1; 1; 1] = Some p
    /\ hillas_parameters_2_locals [0; 0; 3] [0; 3; 3] [1; 1; 1] = Some l
    /\ cov_xy [1; 1; 1] [0; 0; 3] [0; 3; 3] <> 0
    /\ p_a p = 1 /\ p_b p = 1
    /\ p_miss p = 1 / 2
    /\ p_miss p = Rabs (p_b p) / (1 + p_a p * p_a p)
    /\ Rabs (p_b p) / sqrt (1 + p_a p * p_a p) = 1 / sqrt 2
    /\ p_miss p <> Rabs (p_b p) / sqrt (1 + p_a p * p_a p)
    /\ l_miss l = Rabs (p_b p) / sqrt (1 + p_a p * p_a p).
Proof.
  destruct triangle_moments as (_ & _ & _ & _ & _ & _ & Cxy).
  destruct triangle_hillas_parameters as (p & Ep & A & B & _ & _ & Pm & _).
  destruct triangle_hillas_parameters_2 as (l & h & El & _ & _ & _ & Lm & _).
  exists p, l.
  assert (D : Rabs (p_b p) / sqrt (1 + p_a p * p_a p) = 1 / sqrt 2).
  { rewrite A, B, Rabs_R1. do 2 f_equal. ring. }
  pose proof (sqrt_lt_R0 2 ltac:(lra)) as Hs2.
  repeat split; try assumption.
  - rewrite Cxy. lra.
  - apply (hillas_parameters_miss _ _ _ p Ep).
  - rewrite Pm, D. intros E. apply sqrt_2_not_2.
    assert (H1 : sqrt 2 * (1 / sqrt 2) = 1) by (field; lra).
    rewrite <- E in H1. lra.
  - rewrite D. exact Lm.
Qed.

Lemma hillas_translation_witness :
  exists p p' l l' h h',
    hillas_parameters [0; 0; 3] [0; 3; 3] [1; 1; 1] = Some p
    /\ hillas_parameters (vadds [0; 0; 3] 1) (vadds [0; 3; 3] 0) [1; 1; 1] = Some p'
    /\ hillas_parameters_2_locals [0; 0; 3] [0; 3; 3] [1; 1; 1] = Some l
    /\ hillas_parameters_2_locals (vadds [0; 0; 3] 1) (vadds [0; 3; 3] 0) [1; 1; 1]
       = Some l'
    /\ hillas_parameters_2 [0; 0; 3] [0; 3; 3] [1; 1; 1] = Some h
    /\ hillas_parameters_2 (vadds [0; 0; 3] 1) (vadds [0; 3; 3] 0) [1; 1; 1] = Some h'
    /\ l_vxy l <> 0
    /\ l_vx2 l' = l_vx2 l /\ l_vy2 l' = l_vy2 l /\ l_vxy l' = l_vxy l
    /\ l_zz l' = l_zz l
    /\ width h' = width h /\ length h' = length h
    /\ cx h' = cx h + 1 /\ cy h' = cy h + 0
    /\ p_x p' = p_x p + 1 /\ p_y p' = p_y p + 0
    /\ p_a p' = p_a p
    /\ p_width p' = p_width p /\ p_length p' = p_length p.
Proof.
  destruct (hillas_translation [0; 0; 3] [0; 3; 3] [1; 1; 1] 1 0 triangle_valid)
    as (p & p' & l & l' & h & h' & Ep & Ep' & El & El' & Eh & Eh'
        & Vx & Vy & Vxy & Zz & _ & _ & _ & Hw & Hl & _ & Cx & Cy & _ & _
        & Px & Py & _ & Himp).
  assert (Hc : l_vxy l <> 0).
  { destruct triangle_valid as (Hx & Hy & _ & _).
    destruct (hillas_parameters_2_locals_fields _ _ _ Hx Hy)
      as (l0 & El0 & _ & _ & _ & _ & Hvxy & _).
    rewrite El in El0. injection El0 as <-.
    destruct triangle_moments as (_ & _ & _ & _ & _ & _ & Cxy).
    rewrite Hvxy, Cxy. lra. }
  destruct (Himp Hc) as (Pa & _ & _ & Pw & Pl).
  exists p, p', l, l', h, h'.
  repeat match goal with |- _ /\ _ => split end; assumption.
Defined.

(** C8 as stated fails for [miss] and [azwidth]: moving the triangle by
    (1,0) changes the [miss] of [hillas_parameters] from 1/2 to 0 and the
    [azwidth] of [hillas_parameters_2] from [sqrt 7] to [sqrt 10]. *)
Lemma hillas_translation_counterexample :
  valid_image [0; 0; 3] [0; 3; 3] [1; 1; 1]
  /\ exists p p' h h',
       hillas_parameters [0; 0; 3] [0; 3; 3] [1; 1; 1] = Some p
       /\ hillas_parameters (vadds [0; 0; 3] 1) (vadds [0; 3; 3] 0) [1; 1; 1] = Some p'
       /\ hillas_parameters_2 [0; 0; 3] [0; 3; 3] [1; 1; 1] = Some h
       /\ hillas_parameters_2 (vadds [0; 0; 3] 1) (vadds [0; 3; 3] 0) [1; 1; 1] = Some h'
       /\ p_miss p = 1 / 2 /\ p_miss p' = 0 /\ p_miss p' <> p_miss p
       /\ azwidth h = sqrt 7 /\ azwidth h' = sqrt 10
       /\ azwidth h' <> azwidth h.
Proof.
  split; [ exact triangle_valid | ].
  assert (Hx' : List.length (vadds [0; 0; 3] 1) = List.length [1; 1; 1]) by reflexivity.
  assert (Hy' : List.length (vadds [0; 3; 3] 0) = List.length [1; 1; 1]) by reflexivity.
  destruct triangle_moved_moments as (M10' & M01' & M20' & M02' & Vx' & Vy' & Cxy').
  destruct triangle_hillas_parameters as (p & Ep & _ & _ & _ & _ & Pm & _).
  destruct triangle_hillas_parameters_2 as (l & h & El & Eh & _ & _ & _ & Hz).
  destruct (hillas_parameters_fields _ _ _ Hx' Hy')
    as (p' & Ep' & _ & _ & Ha' & Hb' & _).
  destruct (hillas_parameters_2_locals_fields _ _ _ Hx' Hy')
    as (l' & El' & _ & _ & _ & _ & _ & Hzz' & _ & _ & Haz' & _).
  destruct (hillas_parameters_2_of_locals _ _ _ l' El')
    as (h' & Eh' & _ & _ & _ & _ & _ & Hhaz' & _).
  exists p, p', h, h'.
  assert (A' : p_a p' = 1) by (rewrite Ha', Vx', Vy', Cxy'; apply slope_221).
  assert (B' : p_b p' = 0) by (rewrite Hb', A', M10', M01'; ring).
  assert (M' : p_miss p' = 0).
  { rewrite (hillas_parameters_miss _ _ _ p' Ep'), A', B', Rabs_R0. field. }
  assert (Z' : azwidth h' = sqrt 10).
  { rewrite Hhaz', Haz', Hzz', M20', M02', Vx', Vy', Cxy', spread_221.
    f_equal. ring. }
  repeat split; try assumption.
  - rewrite M', Pm. lra.
  - rewrite Z', Hz. apply sqrt_distinct; lra.
Qed.

End HillasExact.

(** * binary64 properties of the Hillas routines *)

Section HillasFloat.
Import Hillas.
Local Open Scope float_scope.

(** There is one NaN, and every operation propagates it. *)
Lemma Prim2SF_nan : Prim2SF nan = S754_nan.
Proof. reflexivity. Qed.

Lemma is_nan_SF (x : float) : Prim2SF x = S754_nan -> is_nan x = true.
Proof.
  intros E. unfold is_nan. rewrite FloatAxioms.eqb_spec, E. reflexivity.
Qed.

Lemma eq_nan_SF (x : float) : Prim2SF x = S754_nan -> x = nan.
Proof. intros E. apply Prim2SF_inj. rewrite E. reflexivity. Qed.

Lemma add_nan_l (y : float) : nan + y = nan.
Proof. apply eq_nan_SF. rewrite add_spec, Prim2SF_nan. reflexivity. Qed.

Lemma add_nan_r (x : float) : x + nan = nan.
Proof.
  apply eq_nan_SF. rewrite add_spec, Prim2SF_nan.
  destruct (Prim2SF x); reflexivity.
Qed.

Lemma sub_nan_l (y : float) : nan - y = nan.
Proof. apply eq_nan_SF. rewrite sub_spec, Prim2SF_nan. reflexivity. Qed.

Lemma mul_nan_l (y : float) : nan * y = nan.
Proof. apply eq_nan_SF. rewrite mul_spec, Prim2SF_nan. reflexivity. Qed.

Lemma mul_nan_r (x : float) : x * nan = nan.
Proof.
  apply eq_nan_SF. rewrite mul_spec, Prim2SF_nan.
  destruct (Prim2SF x); reflexivity.
Qed.

Lemma div_nan_l (y : float) : nan / y = nan.
Proof. apply eq_nan_SF. rewrite div_spec, Prim2SF_nan. reflexivity. Qed.

(** The two zeros. *)
Lemma is_zero_cases (x : float) : is_zero x = true -> x = 0 \/ x = -0.
Proof.
  unfold is_zero. rewrite FloatAxioms.eqb_spec. intros E.
  assert (Z : exists b, Prim2SF x = S754_zero b).
  { destruct (Prim2SF x) as [b | b | | b m e]; try (exists b; reflexivity);
      try discriminate E; destruct b; discriminate E. }
  destruct Z as [[|] Z]; [ right | left ]; apply Prim2SF_inj; rewrite Z; reflexivity.
Qed.

(** A square root of a negative number is NaN. *)
Lemma sqrt_negative (x : float) : (x <? 0) = true -> is_nan (PrimFloat.sqrt x) = true.
Proof.
  rewrite FloatAxioms.ltb_spec. intros E. apply is_nan_SF. rewrite sqrt_spec.
  destruct (Prim2SF x) as [b | b | | b m e]; try discriminate E;
    destruct b; try discriminate E; reflexivity.
Qed.

(** A quotient by zero is NaN or infinite. *)
Lemma div_zero_not_finite (n d : float) :
  is_zero d = true -> is_finite (n / d) = false.
Proof.
  intros Hd.
  assert (C : Prim2SF (n / d) = S754_nan \/ exists b, Prim2SF (n / d) = S754_infinity b).
  { rewrite div_spec.
    destruct (is_zero_cases d Hd) as [-> | ->];
      destruct (Prim2SF n) as [b | b | | b m e]; cbn; eauto. }
  unfold is_finite, is_nan, is_infinity. rewrite !FloatAxioms.eqb_spec, abs_spec.
  destruct C as [-> | [[|] ->]]; reflexivity.
Qed.

Lemma vmuls_nan (v : list float) : vmuls v nan = nans (List.length v).
Proof.
  induction v as [|a v IH]; [ reflexivity | ].
  unfold vmuls in *. cbn [map List.length nans repeat mul f64_scalar].
  rewrite mul_nan_r. f_equal. exact IH.
Qed.

Lemma vadd_nans (n : nat) : vadd (nans n) (nans n) = nans n.
Proof.
  induction n as [|n IH]; [ reflexivity | ].
  unfold vadd in *. cbn [nans repeat zip_with add f64_scalar].
  rewrite add_nan_l. f_equal. exact IH.
Qed.

Lemma vmul_nans (v : list float) : vmul v (nans (List.length v)) = nans (List.length v).
Proof.
  induction v as [|a v IH]; [ reflexivity | ].
  unfold vmul in *. cbn [List.length nans repeat zip_with mul f64_scalar].
  rewrite mul_nan_r. f_equal. exact IH.
Qed.

Lemma vmul_nans_nans (n : nat) : vmul (nans n) (nans n) = nans n.
Proof.
  induction n as [|n IH]; [ reflexivity | ].
  unfold vmul in *. cbn [nans repeat zip_with mul f64_scalar].
  rewrite mul_nan_l. f_equal. exact IH.
Qed.

Lemma fold_add_nan (v : list float) : fold_left PrimFloat.add v nan = nan.
Proof.
  induction v as [|a v IH]; [ reflexivity | ].
  cbn [fold_left]. rewrite add_nan_l. exact IH.
Qed.

Lemma np_sum_nans (n : nat) : np_sum (nans (S n)) = nan.
Proof.
  unfold np_sum. cbn [nans repeat fold_left add zero f64_scalar].
  rewrite add_nan_r. apply fold_add_nan.
Qed.

Lemma same_shape_ok (u v : list float) :
  List.length u = List.length v -> same_shape u v = true.
Proof. intros E. unfold same_shape. rewrite E. apply Nat.eqb_refl. Qed.

(** C10: when the centroid that [hillas_parameters] computes is the
    origin, the function returns a result; in it [r] is zero, [sin_theta]
    and [cos_theta] are 0/0, that is NaN, and so is [azwidth]. *)
Theorem hillas_parameters_centroid_at_origin (x y s : list float) :
  List.length x = List.length s ->
  List.length y = List.length s ->
  is_zero (np_sum (vmul s x) / np_sum s) = true ->
  is_zero (np_sum (vmul s y) / np_sum s) = true ->
  exists p,
    hillas_parameters x y s = Some p
    /\ p_x p = np_sum (vmul s x) / np_sum s
    /\ p_y p = np_sum (vmul s y) / np_sum s
    /\ is_zero (p_r p) = true
    /\ is_nan (p_y p / p_r p) = true
    /\ is_nan (p_x p / p_r p) = true
    /\ is_nan (p_azwidth p) = true.
Proof.
  intros Sx Sy.
  unfold hillas_parameters.
  rewrite (same_shape_ok _ _ Sx), (same_shape_ok _ _ Sy). cbn [negb].
  intros Hx Hy. eexists. split; [ reflexivity | ].
  cbn [p_x p_y p_r p_azwidth add sub mul div np_sqrt f64_scalar].
  set (m_x := np_sum (vmul s x) / np_sum s) in *.
  set (m_y := np_sum (vmul s y) / np_sum s) in *.
  assert (Hne : exists n, List.length s = S n).
  { destruct s as [|w s']; [ | eexists; reflexivity ].
    destruct x; [ | discriminate ]. discriminate Hx. }
  destruct Hne as [n Hn].
  assert (Hr : PrimFloat.sqrt (m_x * m_x + m_y * m_y) = 0
               /\ m_y / PrimFloat.sqrt (m_x * m_x + m_y * m_y) = nan
               /\ m_x / PrimFloat.sqrt (m_x * m_x + m_y * m_y) = nan).
  { destruct (is_zero_cases _ Hx) as [-> | ->];
      destruct (is_zero_cases _ Hy) as [-> | ->]; repeat split; reflexivity. }
  destruct Hr as (Hr & Hsin & Hcos).
  rewrite Hsin, Hcos, Hr.
  repeat split.
  rewrite !vmuls_nan.
  unfold ssub, vsubs. rewrite !length_map, Sx, Sy, vadd_nans, vmul_nans.
  rewrite Hn, vmul_nans_nans, np_sum_nans.
  rewrite !div_nan_l, mul_nan_l, sub_nan_l. reflexivity.
Qed.

Lemma hillas_parameters_centroid_at_origin_witness :
  exists p,
    hillas_parameters [1; -1] [0; 0] [1; 1] = Some p
    /\ p_x p = np_sum (vmul [1; 1] [1; -1]) / np_sum [1; 1]
    /\ p_y p = np_sum (vmul [1; 1] [0; 0]) / np_sum [1; 1]
    /\ is_zero (p_r p) = true
    /\ is_nan (p_y p / p_r p) = true
    /\ is_nan (p_x p / p_r p) = true
    /\ is_nan (p_azwidth p) = true.
Proof.
  apply (hillas_parameters_centroid_at_origin [1; -1] [0; 0] [1; 1]);
    reflexivity.
Defined.

(** C4 (as amended): [hillas_parameters_2] hands the radicands of [width]
    and [length] to [np.sqrt] as they were computed.  When
    [vx2 + vy2 - zz] is negative the returned [width] is NaN, and when
    [vx2 + vy2 + zz] is negative the returned [length] is NaN, whatever
    the C library computes for the angles. *)
Theorem hillas_parameters_2_no_clamp (x y s : list float) :
  List.length x = List.length s ->
  List.length y = List.length s ->
  exists l,
    hillas_parameters_2_locals x y s = Some l
    /\ l_width l = PrimFloat.sqrt (l_vx2 l + l_vy2 l - l_zz l)
    /\ l_length l = PrimFloat.sqrt (l_vx2 l + l_vy2 l + l_zz l)
    /\ ((l_vx2 l + l_vy2 l - l_zz l <? 0) = true -> is_nan (l_width l) = true)
    /\ ((l_vx2 l + l_vy2 l + l_zz l <? 0) = true -> is_nan (l_length l) = true)
    /\ forall LA : Libm float,
         exists h, hillas_parameters_2 x y s = Some h
           /\ width h = l_width l /\ length h = l_length l.
Proof.
  intros Sx Sy.
  destruct (hillas_parameters_2_locals x y s) as [l|] eqn:E.
  - exists l.
    assert (W : l_width l = PrimFloat.sqrt (l_vx2 l + l_vy2 l - l_zz l)
                /\ l_length l = PrimFloat.sqrt (l_vx2 l + l_vy2 l + l_zz l)).
    { revert E. unfold hillas_parameters_2_locals.
      rewrite (same_shape_ok _ _ Sx), (same_shape_ok _ _ Sy). cbn [negb].
      intros E. injection E as <-. split; reflexivity. }
    destruct W as [Ww Wl]. repeat split; try assumption.
    + intros Hneg. rewrite Ww. apply sqrt_negative. exact Hneg.
    + intros Hneg. rewrite Wl. apply sqrt_negative. exact Hneg.
    + intros LA.
      destruct (hillas_parameters_2_of_locals x y s l E)
        as (h & Eh & _ & _ & _ & Hw & Hl & _).
      exists h. repeat split; assumption.
  - revert E. unfold hillas_parameters_2_locals.
    rewrite (same_shape_ok _ _ Sx), (same_shape_ok _ _ Sy). discriminate.
Qed.

Lemma hillas_parameters_2_no_clamp_witness :
  exists l,
    hillas_parameters_2_locals [1; 2] [4; 5] [3; 2] = Some l
    /\ l_width l = PrimFloat.sqrt (l_vx2 l + l_vy2 l - l_zz l)
    /\ l_length l = PrimFloat.sqrt (l_vx2 l + l_vy2 l + l_zz l)
    /\ ((l_vx2 l + l_vy2 l - l_zz l <? 0) = true -> is_nan (l_width l) = true)
    /\ ((l_vx2 l + l_vy2 l + l_zz l <? 0) = true -> is_nan (l_length l) = true)
    /\ forall LA : Libm float,
         exists h, hillas_parameters_2 [1; 2] [4; 5] [3; 2] = Some h
           /\ width h = l_width l /\ length h = l_length l.
Proof.
  apply (hillas_parameters_2_no_clamp [1; 2] [4; 5] [3; 2]); reflexivity.
Defined.

(** C4 as stated fails: for the valid image with pixels (1,4) and (2,5)
    of intensity 3 and 2, rounding makes [vx2 + vy2 - zz] negative and the
    returned [width] is NaN. *)
Lemma hillas_parameters_2_width_nan_counterexample :
  exists l,
    hillas_parameters_2_locals [1; 2] [4; 5] [3; 2] = Some l
    /\ (l_vx2 l + l_vy2 l - l_zz l <? 0) = true
    /\ is_nan (l_width l) = true
    /\ forall LA : Libm float,
         exists h, hillas_parameters_2 [1; 2] [4; 5] [3; 2] = Some h
           /\ is_nan (width h) = true.
Proof.
  eexists. split; [ vm_compute; reflexivity | ].
  split; [ vm_compute; reflexivity | ].
  split; [ vm_compute; reflexivity | ].
  intros LA. eexists. split; [ reflexivity | ]. vm_compute. reflexivity.
Qed.

(** C9 (as amended): with a zero total intensity both routines return a
    result, no error is raised, and the division by the zero total makes
    the returned centroid NaN or infinite. *)
Theorem hillas_zero_total (x y s : list float) :
  List.length x = List.length s ->
  List.length y = List.length s ->
  is_zero (np_sum s) = true ->
  exists p l,
    hillas_parameters x y s = Some p
    /\ is_finite (p_x p) = false /\ is_finite (p_y p) = false
    /\ hillas_parameters_2_locals x y s = Some l
    /\ forall LA : Libm float,
         exists h, hillas_parameters_2 x y s = Some h
           /\ is_finite (cx h) = false /\ is_finite (cy h) = false.
Proof.
  intros Hx Hy Hz.
  assert (Sx : same_shape x s = true) by (unfold same_shape; rewrite Hx; apply Nat.eqb_refl).
  assert (Sy : same_shape y s = true) by (unfold same_shape; rewrite Hy; apply Nat.eqb_refl).
  unfold hillas_parameters, hillas_parameters_2, hillas_parameters_2_locals.
  rewrite Sx, Sy. cbn [negb].
  eexists. eexists. split; [ reflexivity | ].
  cbn [p_x p_y div f64_scalar].
  split; [ apply div_zero_not_finite; exact Hz | ].
  split; [ apply div_zero_not_finite; exact Hz | ].
  split; [ reflexivity | ].
  intros LA. eexists. split; [ reflexivity | ].
  cbn [cx cy l_moms at_ nth map div f64_scalar].
  split; apply div_zero_not_finite; exact Hz.
Qed.

Lemma hillas_zero_total_witness :
  exists p l,
    hillas_parameters [1; 2] [0; 1] [0; 0] = Some p
    /\ is_finite (p_x p) = false /\ is_finite (p_y p) = false
    /\ hillas_parameters_2_locals [1; 2] [0; 1] [0; 0] = Some l
    /\ forall LA : Libm float,
         exists h, hillas_parameters_2 [1; 2] [0; 1] [0; 0] = Some h
           /\ is_finite (cx h) = false /\ is_finite (cy h) = false.
Proof.
  apply (hillas_zero_total [1; 2] [0; 1] [0; 0]); reflexivity.
Defined.

(** C9 as stated fails: on an image of two pixels of intensity zero both
    routines return a result, and every number in it that depends on a
    moment is NaN. *)
Lemma hillas_zero_total_counterexample :
  is_zero (np_sum [0; 0]) = true
  /\ hillas_parameters [1; 2] [0; 1] [0; 0]
     = Some {| p_x := nan; p_y := nan; p_a := nan; p_b := nan;
               p_width := nan; p_length := nan; p_miss := nan;
               p_r := nan; p_azwidth := nan |}
  /\ hillas_parameters_2_locals [1; 2] [0; 1] [0; 0]
     = Some {| l_size := 0; l_moms := [nan; nan; nan; nan; nan];
               l_vx2 := nan; l_vy2 := nan; l_vxy := nan; l_dd := nan;
               l_zz := nan; l_miss := nan; l_width := nan;
               l_length := nan; l_azwidth := nan |}
  /\ forall LA : Libm float,
       exists h, hillas_parameters_2 [1; 2] [0; 1] [0; 0] = Some h
         /\ is_nan (cx h) = true /\ is_nan (cy h) = true
         /\ is_nan (width h) = true /\ is_nan (length h) = true
         /\ is_nan (azwidth h) = true.
Proof.
  split; [ reflexivity | ].
  split; [ vm_compute; reflexivity | ].
  split; [ vm_compute; reflexivity | ].
  intros LA. eexists. split; [ reflexivity | ].
  repeat split; vm_compute; reflexivity.
Qed.
End HillasFloat.

(** * Further properties of the frame transforms *)

Section GroundFramesMore.
Import GroundFrames.
Local Open Scope R_scope.

Ltac arrays :=
  unfold vadd, vsub, vmul, smul, vdivs;
  cbn [map zip_with add sub mul div R_scalar].

(** X1: the matrix is a proper rotation: its determinant is 1. *)
Theorem trans_matrix_det (azimuth altitude : R) :
  det3 (get_shower_trans_matrix azimuth altitude) = 1.
Proof.
  rewrite trans_entries. unfold det3, item. cbn [nth].
  pose proof (sin_cos_sq azimuth) as Ha. pose proof (sin_cos_sq altitude) as Hz.
  pose proof (f_equal (Rmult (sin altitude * sin altitude)) Ha) as H1.
  pose proof (f_equal (Rmult (cos altitude * cos altitude)) Ha) as H2.
  nra.
Qed.

(** X2: the embedding of the tilted plane into the ground frame keeps the
    distance of every point from the origin. *)
Theorem tilted_to_ground_isometry (t : TiltedGroundFrame) (g : GroundFrame) :
  planar_shape t ->
  vadd (vadd (vmul (g_x (tilted_to_ground t g)) (g_x (tilted_to_ground t g)))
             (vmul (g_y (tilted_to_ground t g)) (g_y (tilted_to_ground t g))))
       (vmul (g_z (tilted_to_ground t g)) (g_z (tilted_to_ground t g)))
  = vadd (vmul (t_x t) (t_x t)) (vmul (t_y t) (t_y t)).
Proof.
  destruct t as [[tx ty] [al a]]. unfold planar_shape, tilted_to_ground, t_x, t_y.
  cbn [t_data rep_x rep_y t_pointing_direction g_x g_y g_z alt az].
  rewrite trans_entries. unfold item. cbn [nth]. intros Hlen.
  pose proof (sin_cos_sq a) as Ha. pose proof (sin_cos_sq al) as Hz.
  revert ty Hlen. induction tx as [|u tx IH]; intros [|v ty] Hlen; try discriminate.
  - reflexivity.
  - injection Hlen as Hlen. specialize (IH ty Hlen). revert IH. arrays. intros IH.
    f_equal; [ | exact IH ].
    pose proof (f_equal (Rmult (sin al * sin al * (u * u))) Ha).
    pose proof (f_equal (Rmult (u * u)) Hz).
    pose proof (f_equal (Rmult (v * v)) Ha). nra.
Qed.

Lemma tilted_to_ground_isometry_witness :
  let t := {| t_data := {| rep_x := [3]; rep_y := [4] |};
              t_pointing_direction := {| alt := 0; az := 0 |} |} in
  vadd (vadd (vmul (g_x (tilted_to_ground t GroundFrame_default))
                   (g_x (tilted_to_ground t GroundFrame_default)))
             (vmul (g_y (tilted_to_ground t GroundFrame_default))
                   (g_y (tilted_to_ground t GroundFrame_default))))
       (vmul (g_z (tilted_to_ground t GroundFrame_default))
             (g_z (tilted_to_ground t GroundFrame_default)))
  = vadd (vmul (t_x t) (t_x t)) (vmul (t_y t) (t_y t)).
Proof.
  cbv zeta. apply tilted_to_ground_isometry. reflexivity.
Defined.

(** X4: [ground_to_tilted] does not see the component of a ground point along
    the pointing axis: moving every point [i] by [lam_i] times the third
    row of the matrix leaves the tilted coordinates unchanged. *)
Theorem ground_to_tilted_along_axis (g : GroundFrame) (t : TiltedGroundFrame)
    (lam : list R) :
  cartesian_shape g ->
  List.length lam = List.length (g_x g) ->
  ground_to_tilted
    {| g_x := vadd (g_x g)
                (smul (item (get_shower_trans_matrix (az (t_pointing_direction t))
                                                     (alt (t_pointing_direction t))) 2 0) lam);
       g_y := vadd (g_y g)
                (smul (item (get_shower_trans_matrix (az (t_pointing_direction t))
                                                     (alt (t_pointing_direction t))) 2 1) lam);
       g_z := vadd (g_z g)
                (smul (item (get_shower_trans_matrix (az (t_pointing_direction t))
                                                     (alt (t_pointing_direction t))) 2 2) lam);
       g_pointing_direction := g_pointing_direction g |} t
  = ground_to_tilted g t.
Proof.
  destruct g as [gx gy gz pd]. destruct t as [[tx ty] [al a]].
  unfold cartesian_shape, ground_to_tilted.
  cbn [t_pointing_direction g_x g_y g_z g_pointing_direction alt az].
  rewrite trans_entries. unfold item. cbn [nth].
  intros [Hxy Hyz] Hl.
  pose proof (sin_cos_sq a) as Ha.
  enough (E : forall gx gy gz lam,
    List.length gx = List.length gy -> List.length gy = List.length gz ->
    List.length lam = List.length gx ->
    vadd (vadd (smul (sin al * cos a) (vadd gx (smul (cos al * cos a) lam)))
               (smul (- sin al * sin a) (vadd gy (smul (- cos al * sin a) lam))))
         (smul (- cos al) (vadd gz (smul (sin al) lam)))
    = vadd (vadd (smul (sin al * cos a) gx) (smul (- sin al * sin a) gy))
           (smul (- cos al) gz)
    /\ vadd (vadd (smul (sin a) (vadd gx (smul (cos al * cos a) lam)))
                  (smul (cos a) (vadd gy (smul (- cos al * sin a) lam))))
            (smul 0 (vadd gz (smul (sin al) lam)))
       = vadd (vadd (smul (sin a) gx) (smul (cos a) gy)) (smul 0 gz)).
  { destruct (E gx gy gz lam Hxy Hyz Hl) as [Ex Ey]. rewrite Ex, Ey. reflexivity. }
  clear - Ha.
  induction gx as [|x gx IH]; intros [|y gy] [|z gz] [|l lam] Hxy Hyz Hl;
    try discriminate.
  - split; reflexivity.
  - injection Hxy as Hxy. injection Hyz as Hyz. injection Hl as Hl.
    destruct (IH gy gz lam Hxy Hyz Hl) as [Ix Iy]. revert Ix Iy. arrays.
    intros Ix Iy. split; (f_equal; [ | assumption ]).
    + pose proof (f_equal (Rmult (sin al * cos al * l)) Ha). nra.
    + nra.
Qed.

Lemma ground_to_tilted_along_axis_witness :
  let t := {| t_data := {| rep_x := []; rep_y := [] |};
              t_pointing_direction := {| alt := 0; az := 0 |} |} in
  let g := {| g_x := [1]; g_y := [2]; g_z := [3]; g_pointing_direction := None |} in
  ground_to_tilted
    {| g_x := vadd (g_x g)
                (smul (item (get_shower_trans_matrix (az (t_pointing_direction t))
                                                     (alt (t_pointing_direction t))) 2 0) [5]);
       g_y := vadd (g_y g)
                (smul (item (get_shower_trans_matrix (az (t_pointing_direction t))
                                                     (alt (t_pointing_direction t))) 2 1) [5]);
       g_z := vadd (g_z g)
                (smul (item (get_shower_trans_matrix (az (t_pointing_direction t))
                                                     (alt (t_pointing_direction t))) 2 2) [5]);
       g_pointing_direction := g_pointing_direction g |} t
  = ground_to_tilted g t.
Proof.
  cbv zeta. apply ground_to_tilted_along_axis; [ split; reflexivity | reflexivity ].
Defined.

(** X6: projecting a tilted point set onto the ground and transforming the
    projection back gives the tilted point set again, whenever the divisor
    of the projection is not zero. *)
Theorem project_then_tilt (t : TiltedGroundFrame) :
  planar_shape t ->
  project_divisor (t_pointing_direction t) <> 0 ->
  ground_to_tilted (project_to_ground t) t = t.
Proof.
  destruct t as [[tx ty] [al a]].
  unfold planar_shape, project_divisor, ground_to_tilted, project_to_ground,
    tilted_to_ground, t_x, t_y.
  cbn [t_data rep_x rep_y t_pointing_direction g_x g_y g_z alt az].
  rewrite trans_entries. unfold item. cbn [nth].
  intros Hlen Hd.
  pose proof (sin_cos_sq a) as Ha. pose proof (sin_cos_sq al) as Hz.
  enough (E : forall tx ty, List.length tx = List.length ty ->
    let x_i := vadd (smul (sin al * cos a) tx) (smul (sin a) ty) in
    let y_i := vadd (smul (- sin al * sin a) tx) (smul (cos a) ty) in
    let z_i := vadd (smul (- cos al) tx) (smul 0 ty) in
    let x_p := vsub x_i (vdivs (smul (cos al * cos a) z_i) (sin al)) in
    let y_p := vsub y_i (vdivs (smul (- cos al * sin a) z_i) (sin al)) in
    vadd (vadd (smul (sin al * cos a) x_p) (smul (- sin al * sin a) y_p))
         (smul (- cos al) (map (fun _ => 0) x_p)) = tx
    /\ vadd (vadd (smul (sin a) x_p) (smul (cos a) y_p))
            (smul 0 (map (fun _ => 0) x_p)) = ty).
  { destruct (E tx ty Hlen) as [Ex Ey]. cbv zeta in Ex, Ey.
    rewrite Ex, Ey. reflexivity. }
  clear - Ha Hz Hd.
  induction tx as [|u tx IH]; intros [|v ty] Hlen; try discriminate.
  - split; reflexivity.
  - injection Hlen as Hlen. destruct (IH ty Hlen) as [Ix Iy].
    cbv zeta in *. revert Ix Iy. arrays. intros Ix Iy.
    split; (f_equal; [ | assumption ]).
    + apply Rmult_eq_reg_r with (sin al); [ | exact Hd ].
      field_simplify; [ | exact Hd ].
      pose proof (f_equal (Rmult (sin al * sin al * u)) Ha).
      pose proof (f_equal (Rmult (cos al * cos al * u)) Ha).
      pose proof (f_equal (Rmult (sin al * u)) Hz).
      pose proof (f_equal (Rmult (sin al * sin al * sin al * u)) Ha).
      pose proof (f_equal (Rmult (sin al * cos al * cos al * u)) Ha).
      nra.
    + apply Rmult_eq_reg_r with (sin al); [ | exact Hd ].
      field_simplify; [ | exact Hd ].
      pose proof (f_equal (Rmult (sin al * v)) Ha). nra.
Qed.

Lemma project_then_tilt_witness :
  let t := {| t_data := {| rep_x := [1]; rep_y := [2] |};
              t_pointing_direction := {| alt := PI / 2; az := 0 |} |} in
  ground_to_tilted (project_to_ground t) t = t.
Proof.
  cbv zeta. apply project_then_tilt; [ reflexivity | ].
  rewrite project_divisor_sin. cbn [t_pointing_direction alt].
  rewrite sin_PI2. lra.
Defined.

Lemma project_to_ground_along_axis_witness :
  let t := {| t_data := {| rep_x := [1]; rep_y := [2] |};
              t_pointing_direction := {| alt := PI / 2; az := 0 |} |} in
  let p := t_pointing_direction t in
  let trans := get_shower_trans_matrix (az p) (alt p) in
  let g := tilted_to_ground t GroundFrame_default in
  let lam := vdivs (g_z g) (project_divisor p) in
  g_x (project_to_ground t) = vsub (g_x g) (smul (item trans 2 0) lam)
  /\ g_y (project_to_ground t) = vsub (g_y g) (smul (item trans 2 1) lam)
  /\ g_z (project_to_ground t) = vsub (g_z g) (smul (item trans 2 2) lam).
Proof.
  cbv zeta.
  apply (project_to_ground_along_axis
           {| t_data := {| rep_x := [1]; rep_y := [2] |};
              t_pointing_direction := {| alt := PI / 2; az := 0 |} |});
    [ reflexivity | ].
  rewrite project_divisor_sin. cbn [t_pointing_direction alt].
  rewrite sin_PI2. lra.
Defined.

Lemma embedding_in_tilted_plane_witness :
  let t := {| t_data := {| rep_x := [1]; rep_y := [2] |};
              t_pointing_direction := {| alt := PI / 2; az := 0 |} |} in
  in_tilted_plane (t_pointing_direction t) (tilted_to_ground t GroundFrame_default).
Proof.
  cbv zeta. apply embedding_in_tilted_plane. reflexivity.
Defined.
End GroundFramesMore.

(** * Further exact properties of the Hillas routines *)

Section HillasExactMore.
Import Hillas Moments.
Local Open Scope R_scope.

Lemma triangle_cov_nonzero : cov_xy [1; 1; 1] [0; 0; 3] [0; 3; 3] <> 0.
Proof.
  destruct triangle_moments as (_ & _ & _ & _ & _ & _ & Cxy). rewrite Cxy. lra.
Qed.

(** X8: both routines return the same centroid and the same distance of the
    centroid from the origin. *)
Theorem hillas_centroids_agree (x y s : list R) :
  List.length x = List.length s ->
  List.length y = List.length s ->
  exists p h,
    hillas_parameters x y s = Some p
    /\ hillas_parameters_2 x y s = Some h
    /\ cx h = p_x p /\ cy h = p_y p /\ distance h = p_r p.
Proof.
  intros Hx Hy.
  destruct (hillas_parameters_fields x y s Hx Hy)
    as (p & Ep & Hpx & Hpy & _ & _ & _ & _ & _ & Hpr & _).
  destruct (hillas_parameters_2_locals_fields x y s Hx Hy)
    as (l & El & _ & Hmo & _).
  destruct (hillas_parameters_2_of_locals x y s l El)
    as (h & Eh & _ & Hcx & Hcy & _ & _ & _ & Hdi & _).
  exists p, h.
  assert (Ex : cx h = p_x p) by (rewrite Hcx, Hmo, Hpx; reflexivity).
  assert (Ey : cy h = p_y p) by (rewrite Hcy, Hmo, Hpy; reflexivity).
  repeat split; try assumption.
  rewrite Hdi, Ex, Ey, Hpr, Hpx, Hpy. reflexivity.
Qed.

Lemma hillas_centroids_agree_witness :
  exists p h,
    hillas_parameters [0; 0; 3] [0; 3; 3] [1; 1; 1] = Some p
    /\ hillas_parameters_2 [0; 0; 3] [0; 3; 3] [1; 1; 1] = Some h
    /\ cx h = p_x p /\ cy h = p_y p /\ distance h = p_r p.
Proof.
  apply (hillas_centroids_agree [0; 0; 3] [0; 3; 3] [1; 1; 1]); reflexivity.
Defined.

(** X9: the squares of [width] and [length] of [hillas_parameters] are the two
    eigenvalues of the covariance matrix of the image: their sum is its
    trace, their product its determinant, and [0 <= width <= length]. *)
Theorem hillas_parameters_axes (x y s : list R) :
  valid_image x y s ->
  cov_xy s x y <> 0 ->
  exists p l,
    hillas_parameters x y s = Some p
    /\ hillas_parameters_2_locals x y s = Some l
    /\ p_width p * p_width p + p_length p * p_length p = l_vx2 l + l_vy2 l
    /\ p_width p * p_width p * (p_length p * p_length p)
       = l_vx2 l * l_vy2 l - l_vxy l * l_vxy l
    /\ 0 <= p_width p <= p_length p.
Proof.
  intros Hv Hc. pose proof (valid_image_total x y s Hv) as Ht.
  destruct Hv as (Hx & Hy & Hw & Hs).
  destruct (hillas_parameters_fields x y s Hx Hy)
    as (p & Ep & _ & _ & _ & _ & Hpw & Hpl & _).
  destruct (hillas_parameters_2_locals_fields x y s Hx Hy)
    as (l & El & _ & _ & Hvx & Hvy & Hvxy & _).
  exists p, l.
  pose proof (spread_bound s x y Hw Ht) as Hb.
  pose proof (spread_sqr (var_x s x y) (var_y s x y) (cov_xy s x y)) as Hq.
  pose proof (spread_pos (var_x s x y) (var_y s x y) (cov_xy s x y) Hc) as Hp.
  rewrite Hpw, Hpl, Hvx, Hvy, Hvxy.
  rewrite (width_2_half (var_x s x y) (var_y s x y) (cov_xy s x y) Hc),
    (length_2_half (var_x s x y) (var_y s x y) (cov_xy s x y) Hc).
  cbv zeta in Hq, Hp.
  set (z := spread (var_x s x y) (var_y s x y) (cov_xy s x y)) in *.
  set (A := var_x s x y) in *. set (B := var_y s x y) in *.
  set (C := cov_xy s x y) in *.
  assert (Hw2 : 0 <= (A + B - z) / 2) by lra.
  assert (Hl2 : 0 <= (A + B + z) / 2) by lra.
  rewrite !sqrt_sqrt by assumption.
  repeat split; try assumption.
  - field.
  - clearbody z A B C. nra.
  - apply sqrt_pos.
  - apply sqrt_le_1_alt. lra.
Qed.

Lemma hillas_parameters_axes_witness :
  exists p l,
    hillas_parameters [0; 0; 3] [0; 3; 3] [1; 1; 1] = Some p
    /\ hillas_parameters_2_locals [0; 0; 3] [0; 3; 3] [1; 1; 1] = Some l
    /\ p_width p * p_width p + p_length p * p_length p = l_vx2 l + l_vy2 l
    /\ p_width p * p_width p * (p_length p * p_length p)
       = l_vx2 l * l_vy2 l - l_vxy l * l_vxy l
    /\ 0 <= p_width p <= p_length p.
Proof.
  apply (hillas_parameters_axes [0; 0; 3] [0; 3; 3] [1; 1; 1]).
  - exact triangle_valid.
  - exact triangle_cov_nonzero.
Defined.

(** X10: [width] and [length] of [hillas_parameters_2] are [sqrt 2] times those
    of [hillas_parameters], for every image whose covariance is not zero. *)
Theorem hillas_width_length_ratio (x y s : list R) :
  List.length x = List.length s ->
  List.length y = List.length s ->
  cov_xy s x y <> 0 ->
  exists p h,
    hillas_parameters x y s = Some p
    /\ hillas_parameters_2 x y s = Some h
    /\ width h = sqrt 2 * p_width p
    /\ length h = sqrt 2 * p_length p.
Proof.
  intros Hx Hy Hc.
  destruct (hillas_parameters_fields x y s Hx Hy)
    as (p & Ep & _ & _ & _ & _ & Hpw & Hpl & _).
  destruct (hillas_parameters_2_locals_fields x y s Hx Hy)
    as (l & El & _ & _ & Hvx & Hvy & _ & Hzz & Hwid & Hlen & _).
  destruct (hillas_parameters_2_of_locals x y s l El)
    as (h & Eh & _ & _ & _ & Hhw & Hhl & _).
  exists p, h. split; [ exact Ep | ]. split; [ exact Eh | ].
  rewrite Hhw, Hhl, Hwid, Hlen, Hpw, Hpl, Hzz, Hvx, Hvy.
  rewrite (width_2_half (var_x s x y) (var_y s x y) (cov_xy s x y) Hc),
    (length_2_half (var_x s x y) (var_y s x y) (cov_xy s x y) Hc).
  rewrite <- !sqrt_mult_alt by lra.
  split; f_equal; field.
Qed.

Lemma hillas_width_length_ratio_witness :
  exists p h,
    hillas_parameters [0; 0; 3] [0; 3; 3] [1; 1; 1] = Some p
    /\ hillas_parameters_2 [0; 0; 3] [0; 3; 3] [1; 1; 1] = Some h
    /\ width h = sqrt 2 * p_width p
    /\ length h = sqrt 2 * p_length p.
Proof.
  apply (hillas_width_length_ratio [0; 0; 3] [0; 3; 3] [1; 1; 1]);
    [ reflexivity | reflexivity | exact triangle_cov_nonzero ].
Defined.

(** X11: the [miss] that [hillas_parameters_2] computes is the distance
    [|b| / sqrt (1 + a^2)] from the origin to the major axis
    [y = a * x + b] that [hillas_parameters] returns; the [miss] that
    [hillas_parameters] returns is smaller by the factor
    [sqrt (1 + a^2)]. *)
Theorem hillas_miss_relation (x y s : list R) :
  List.length x = List.length s ->
  List.length y = List.length s ->
  cov_xy s x y <> 0 ->
  exists p l,
    hillas_parameters x y s = Some p
    /\ hillas_parameters_2_locals x y s = Some l
    /\ l_miss l = Rabs (p_b p) / sqrt (1 + p_a p * p_a p)
    /\ p_miss p = l_miss l / sqrt (1 + p_a p * p_a p).
Proof.
  intros Hx Hy Hc.
  destruct (hillas_parameters_fields x y s Hx Hy)
    as (p & Ep & _ & _ & Ha & Hb & _).
  destruct (hillas_parameters_2_locals_fields x y s Hx Hy) as (l & El & _).
  exists p, l. split; [ exact Ep | ]. split; [ exact El | ].
  pose proof (hillas_parameters_2_miss x y s l Hx Hy Hc El) as Hm.
  cbv zeta in Hm. rewrite <- Ha in Hm. rewrite <- Hb in Hm.
  split; [ exact Hm | ].
  rewrite (hillas_parameters_miss x y s p Ep), Hm.
  assert (Hp : 0 < 1 + p_a p * p_a p)
    by (pose proof (Rle_0_sqr (p_a p)) as H; unfold Rsqr in H; lra).
  pose proof (sqrt_lt_R0 _ Hp) as Hs.
  pose proof (sqrt_sqrt (1 + p_a p * p_a p) (Rlt_le _ _ Hp)) as Hq.
  rewrite <- Hq at 1. field. lra.
Qed.

Lemma hillas_miss_relation_witness :
  exists p l,
    hillas_parameters [0; 0; 3] [0; 3; 3] [1; 1; 1] = Some p
    /\ hillas_parameters_2_locals [0; 0; 3] [0; 3; 3] [1; 1; 1] = Some l
    /\ l_miss l = Rabs (p_b p) / sqrt (1 + p_a p * p_a p)
    /\ p_miss p = l_miss l / sqrt (1 + p_a p * p_a p).
Proof.
  apply (hillas_miss_relation [0; 0; 3] [0; 3; 3] [1; 1; 1]);
    [ reflexivity | reflexivity | exact triangle_cov_nonzero ].
Defined.

(** X12: the [miss] of [hillas_parameters_2] never exceeds [distance]: the
    argument of [arcsin] in [alpha] lies between 0 and 1 wherever the
    centroid is not the origin. *)
Theorem hillas_miss_le_distance (x y s : list R) :
  List.length x = List.length s ->
  List.length y = List.length s ->
  cov_xy s x y <> 0 ->
  exists l h,
    hillas_parameters_2_locals x y s = Some l
    /\ hillas_parameters_2 x y s = Some h
    /\ 0 <= l_miss l <= distance h.
Proof.
  intros Hx Hy Hc.
  destruct (hillas_parameters_2_locals_fields x y s Hx Hy)
    as (l & El & _ & Hmo & _).
  destruct (hillas_parameters_2_of_locals x y s l El)
    as (h & Eh & _ & Hcx & Hcy & _ & _ & _ & Hdi & _).
  exists l, h. split; [ exact El | ]. split; [ exact Eh | ].
  pose proof (hillas_parameters_2_miss x y s l Hx Hy Hc El) as Hm.
  cbv zeta in Hm. rewrite Hm, Hdi, Hcx, Hcy, Hmo. cbn [at_ nth].
  set (a := slope (var_x s x y) (var_y s x y) (cov_xy s x y)).
  set (mx := m10 s x y). set (my := m01 s x y).
  assert (Hp : 0 < 1 + a * a)
    by (pose proof (Rle_0_sqr a) as H; unfold Rsqr in H; lra).
  pose proof (sqrt_lt_R0 _ Hp) as Hs.
  split.
  - apply Rmult_le_pos; [ apply Rabs_pos | left; apply Rinv_0_lt_compat; exact Hs ].
  - apply Rmult_le_reg_r with (sqrt (1 + a * a)); [ exact Hs | ].
    replace (Rabs (my - a * mx) / sqrt (1 + a * a) * sqrt (1 + a * a))
      with (Rabs (my - a * mx)) by (field; lra).
    cbn [np_hypot R_libm].
    rewrite <- sqrt_mult_alt
      by (pose proof (Rle_0_sqr mx) as H1; pose proof (Rle_0_sqr my) as H2;
          unfold Rsqr in *; lra).
    rewrite <- sqrt_Rsqr_abs. apply sqrt_le_1_alt.
    unfold Rsqr. pose proof (Rle_0_sqr (mx + a * my)) as H3. unfold Rsqr in H3.
    clearbody a mx my. nra.
Qed.

Lemma hillas_miss_le_distance_witness :
  exists l h,
    hillas_parameters_2_locals [0; 0; 3] [0; 3; 3] [1; 1; 1] = Some l
    /\ hillas_parameters_2 [0; 0; 3] [0; 3; 3] [1; 1; 1] = Some h
    /\ 0 <= l_miss l <= distance h.
Proof.
  apply (hillas_miss_le_distance [0; 0; 3] [0; 3; 3] [1; 1; 1]);
    [ reflexivity | reflexivity | exact triangle_cov_nonzero ].
Defined.

(** X13: in [hillas_parameters_2] the square of [azwidth] is the square of
    [width] plus the square of [distance]. *)
Theorem hillas_2_azwidth_pythagoras (x y s : list R) :
  valid_image x y s ->
  exists h,
    hillas_parameters_2 x y s = Some h
    /\ azwidth h * azwidth h = width h * width h + distance h * distance h.
Proof.
  intros Hv. pose proof (valid_image_total x y s Hv) as Ht.
  destruct Hv as (Hx & Hy & Hw & Hs).
  destruct (hillas_parameters_2_locals_fields x y s Hx Hy)
    as (l & El & _ & Hmo & Hvx & Hvy & _ & Hzz & Hwid & _ & Haz & _).
  destruct (hillas_parameters_2_of_locals x y s l El)
    as (h & Eh & _ & Hcx & Hcy & Hhw & _ & Hhaz & Hdi & _).
  exists h. split; [ exact Eh | ].
  pose proof (spread_bound s x y Hw Ht) as Hb.
  rewrite Hhaz, Haz, Hhw, Hwid, Hdi, Hcx, Hcy, Hmo, Hzz, Hvx, Hvy.
  cbn [at_ nth np_hypot R_libm].
  unfold var_x, var_y in *.
  set (z := spread _ _ _) in *.
  pose proof (Rle_0_sqr (m10 s x y)) as H1. pose proof (Rle_0_sqr (m01 s x y)) as H2.
  unfold Rsqr in H1, H2.
  rewrite !sqrt_sqrt by lra. ring.
Qed.

Lemma hillas_2_azwidth_pythagoras_witness :
  exists h,
    hillas_parameters_2 [0; 0; 3] [0; 3; 3] [1; 1; 1] = Some h
    /\ azwidth h * azwidth h = width h * width h + distance h * distance h.
Proof.
  apply (hillas_2_azwidth_pythagoras [0; 0; 3] [0; 3; 3] [1; 1; 1]).
  exact triangle_valid.
Defined.

(** X14: the [azwidth] of [hillas_parameters] is the spread of the image across
    the line from the origin to the centroid: with the centroid [(mx, my)]
    at distance [r > 0], [azwidth^2 * r^2] is
    [my^2 * S_xx + mx^2 * S_yy - 2 * mx * my * S_xy]. *)
Theorem hillas_parameters_azwidth (x y s : list R) :
  valid_image x y s ->
  m10 s x y <> 0 \/ m01 s x y <> 0 ->
  exists p l,
    hillas_parameters x y s = Some p
    /\ hillas_parameters_2_locals x y s = Some l
    /\ 0 < p_r p
    /\ p_azwidth p * p_azwidth p * (p_r p * p_r p)
       = p_y p * p_y p * l_vx2 l + p_x p * p_x p * l_vy2 l
         - 2 * p_x p * p_y p * l_vxy l.
Proof.
  intros Hv Hne. pose proof (valid_image_total x y s Hv) as Ht.
  destruct Hv as (Hx & Hy & Hw & Hs).
  destruct (hillas_parameters_fields x y s Hx Hy)
    as (p & Ep & Hpx & Hpy & _ & _ & _ & _ & _ & Hpr & Hpaz).
  destruct (hillas_parameters_2_locals_fields x y s Hx Hy)
    as (l & El & _ & _ & Hvx & Hvy & Hvxy & _).
  exists p, l. split; [ exact Ep | ]. split; [ exact El | ].
  assert (Hr2 : 0 < m10 s x y * m10 s x y + m01 s x y * m01 s x y).
  { pose proof (Rle_0_sqr (m10 s x y)) as H1. pose proof (Rle_0_sqr (m01 s x y)) as H2.
    unfold Rsqr in H1, H2.
    destruct Hne as [H | H]; [ pose proof (Rsqr_pos_lt _ H) as H3
                             | pose proof (Rsqr_pos_lt _ H) as H3 ];
      unfold Rsqr in H3; lra. }
  assert (Hr : 0 < p_r p) by (rewrite Hpr; apply sqrt_lt_R0; exact Hr2).
  assert (Hrr : p_r p * p_r p = m10 s x y * m10 s x y + m01 s x y * m01 s x y)
    by (rewrite Hpr; apply sqrt_sqrt; lra).
  split; [ exact Hr | ].
  pose proof (quadratic_form_nonneg s x y Hw Ht
                (- (m01 s x y / p_r p)) (m10 s x y / p_r p)) as Hq.
  assert (E : mean (fun a b => azimuthal_q (m10 s x y) (m01 s x y) (p_r p) a b
                               * azimuthal_q (m10 s x y) (m01 s x y) (p_r p) a b) s x y
              - mean (azimuthal_q (m10 s x y) (m01 s x y) (p_r p)) s x y
                * mean (azimuthal_q (m10 s x y) (m01 s x y) (p_r p)) s x y
              = - (m01 s x y / p_r p) * - (m01 s x y / p_r p) * var_x s x y
                + 2 * - (m01 s x y / p_r p) * (m10 s x y / p_r p) * cov_xy s x y
                + m10 s x y / p_r p * (m10 s x y / p_r p) * var_y s x y).
  { unfold mean at 1 2 3.
    rewrite (wsum_ext
               (fun a b => azimuthal_q (m10 s x y) (m01 s x y) (p_r p) a b
                           * azimuthal_q (m10 s x y) (m01 s x y) (p_r p) a b)
               (fun a b => 0 + 0 * a + 0 * b
                           + (m01 s x y / p_r p * (m01 s x y / p_r p)) * (a * a)
                           + (- 2 * (m01 s x y / p_r p) * (m10 s x y / p_r p)) * (a * b)
                           + (m10 s x y / p_r p * (m10 s x y / p_r p)) * (b * b)))
      by (intros; unfold azimuthal_q, Rdiv; ring).
    rewrite (wsum_ext
               (azimuthal_q (m10 s x y) (m01 s x y) (p_r p))
               (fun a b => 0 + (- (m01 s x y / p_r p)) * a + (m10 s x y / p_r p) * b
                           + 0 * (a * a) + 0 * (a * b) + 0 * (b * b)))
      by (intros; unfold azimuthal_q, Rdiv; ring).
    rewrite !wsum_poly.
    unfold var_x, var_y, cov_xy, m20, m02, m11, m10, m01, mean.
    set (T := wsum (fun _ _ => 1) s x y) in *. clearbody T.
    generalize dependent (p_r p). intros r _ _ Hr _ _.
    field. split; lra. }
  rewrite Hpaz, E, sqrt_sqrt by exact Hq.
  rewrite Hpx, Hpy, Hvx, Hvy, Hvxy. field. lra.
Qed.

Lemma hillas_parameters_azwidth_witness :
  exists p l,
    hillas_parameters [0; 0; 3] [0; 3; 3] [1; 1; 1] = Some p
    /\ hillas_parameters_2_locals [0; 0; 3] [0; 3; 3] [1; 1; 1] = Some l
    /\ 0 < p_r p
    /\ p_azwidth p * p_azwidth p * (p_r p * p_r p)
       = p_y p * p_y p * l_vx2 l + p_x p * p_x p * l_vy2 l
         - 2 * p_x p * p_y p * l_vxy l.
Proof.
  apply (hillas_parameters_azwidth [0; 0; 3] [0; 3; 3] [1; 1; 1]).
  - exact triangle_valid.
  - left. destruct triangle_moments as (M10 & _). rewrite M10. lra.
Defined.

(** Multiplying every intensity by [c]. *)
Lemma wsum_scale (c : R) (f : R -> R -> R) (s x y : list R) :
  wsum f (smul c s) x y = c * wsum f s x y.
Proof.
  revert x y. induction s as [|si s' IH]; intros [|xi x'] [|yi y'];
    cbn [wsum smul map mul R_scalar]; try ring.
  fold (smul c s'). rewrite IH. ring.
Qed.

Lemma wsum_ratio_scale (c : R) (f : R -> R -> R) (s x y : list R) :
  c <> 0 -> wsum (fun _ _ => 1) s x y <> 0 ->
  wsum f (smul c s) x y / wsum (fun _ _ => 1) (smul c s) x y
  = wsum f s x y / wsum (fun _ _ => 1) s x y.
Proof. intros Hc Ht. rewrite !wsum_scale. field. split; assumption. Qed.

Lemma smul_length (c : R) (v : list R) : List.length (smul c v) = List.length v.
Proof. apply length_map. Qed.

(** X15: the Hillas parameters do not depend on the unit of the intensities:
    multiplying every intensity of a valid image by [c > 0] leaves the
    result of [hillas_parameters] unchanged, and changes nothing in the
    result of [hillas_parameters_2] but [size], which is multiplied by
    [c]. *)
Theorem hillas_intensity_scale (x y s : list R) (c : R) :
  valid_image x y s ->
  0 < c ->
  hillas_parameters x y (smul c s) = hillas_parameters x y s
  /\ exists h,
       hillas_parameters_2 x y s = Some h
       /\ hillas_parameters_2 x y (smul c s)
          = Some {| size := c * size h; cx := cx h; cy := cy h;
                    length := length h; width := width h;
                    distance := distance h; azwidth := azwidth h;
                    psi := psi h; phi := phi h; alpha := alpha h |}.
Proof.
  intros Hv Hc. pose proof (valid_image_total x y s Hv) as Ht.
  destruct Hv as (Hx & Hy & Hw & Hs).
  assert (Hx' : List.length x = List.length (smul c s))
    by (rewrite smul_length; exact Hx).
  assert (Hy' : List.length y = List.length (smul c s))
    by (rewrite smul_length; exact Hy).
  assert (Hc0 : c <> 0) by lra.
  assert (Ht0 : wsum (fun _ _ => 1) s x y <> 0) by lra.
  split.
  - unfold hillas_parameters.
    rewrite (same_shape_true _ _ Hx), (same_shape_true _ _ Hy),
      (same_shape_true _ _ Hx'), (same_shape_true _ _ Hy').
    cbn [negb add sub mul div R_scalar].
    rewrite (sum_s _ x y Hx' Hy'), (sum_sx _ x y Hx' Hy'), (sum_sy _ x y Hx' Hy'),
      (sum_sxx _ x y Hx' Hy'), (sum_syy _ x y Hx' Hy'), (sum_sxy _ x y Hx' Hy').
    rewrite (sum_s s x y Hx Hy), (sum_sx s x y Hx Hy), (sum_sy s x y Hx Hy),
      (sum_sxx s x y Hx Hy), (sum_syy s x y Hx Hy), (sum_sxy s x y Hx Hy).
    rewrite !(wsum_ratio_scale c _ s x y Hc0 Ht0).
    rewrite (sum_sq _ x y Hx' Hy'), (sum_sqq _ x y Hx' Hy').
    rewrite (sum_sq s x y Hx Hy), (sum_sqq s x y Hx Hy).
    rewrite !(wsum_ratio_scale c _ s x y Hc0 Ht0).
    reflexivity.
  - unfold hillas_parameters_2, hillas_parameters_2_locals.
    rewrite (same_shape_true _ _ Hx), (same_shape_true _ _ Hy),
      (same_shape_true _ _ Hx'), (same_shape_true _ _ Hy').
    cbn [negb map add sub mul div R_scalar].
    rewrite (sum_s _ x y Hx' Hy'), (sum_xs _ x y Hx' Hy'), (sum_ys _ x y Hx' Hy'),
      (sum_xxs _ x y Hx' Hy'), (sum_yys _ x y Hx' Hy'), (sum_xys _ x y Hx' Hy').
    rewrite (sum_s s x y Hx Hy), (sum_xs s x y Hx Hy), (sum_ys s x y Hx Hy),
      (sum_xxs s x y Hx Hy), (sum_yys s x y Hx Hy), (sum_xys s x y Hx Hy).
    rewrite !(wsum_ratio_scale c _ s x y Hc0 Ht0).
    eexists. split; [ reflexivity | ].
    cbn [size cx cy length width distance azwidth psi phi alpha l_size].
    f_equal. f_equal. apply wsum_scale.
Qed.

Lemma hillas_intensity_scale_witness :
  hillas_parameters [0; 0; 3] [0; 3; 3] (smul 2 [1; 1; 1])
  = hillas_parameters [0; 0; 3] [0; 3; 3] [1; 1; 1]
  /\ exists h,
       hillas_parameters_2 [0; 0; 3] [0; 3; 3] [1; 1; 1] = Some h
       /\ hillas_parameters_2 [0; 0; 3] [0; 3; 3] (smul 2 [1; 1; 1])
          = Some {| size := 2 * size h; cx := cx h; cy := cy h;
                    length := length h; width := width h;
                    distance := distance h; azwidth := azwidth h;
                    psi := psi h; phi := phi h; alpha := alpha h |}.
Proof.
  apply (hillas_intensity_scale [0; 0; 3] [0; 3; 3] [1; 1; 1] 2).
  - exact triangle_valid.
  - lra.
Defined.

(** Multiplying every coordinate by [k]. *)
Lemma wsum_dilate (k : R) (f : R -> R -> R) (s x y : list R) :
  wsum f s (smul k x) (smul k y) = wsum (fun a b => f (k * a) (k * b)) s x y.
Proof.
  revert x y. induction s as [|si s' IH]; intros [|xi x'] [|yi y'];
    cbn [wsum smul map]; try reflexivity.
  fold (smul k x'). fold (smul k y'). rewrite IH. reflexivity.
Qed.

Section Dilation.
Variables (s x y : list R) (k : R).

Ltac dilated c0 c1 c2 c3 c4 c5 :=
  unfold m10, m01, m20, m02, m11, mean; rewrite !wsum_dilate;
  rewrite (wsum_ext _ (fun a b => c0 + c1 * a + c2 * b + c3 * (a * a)
                                  + c4 * (a * b) + c5 * (b * b)))
    by (intros; ring);
  rewrite wsum_poly; unfold Rdiv; ring.

Lemma m10_dilate : m10 s (smul k x) (smul k y) = k * m10 s x y.
Proof. dilated 0 k 0 0 0 0. Qed.
Lemma m01_dilate : m01 s (smul k x) (smul k y) = k * m01 s x y.
Proof. dilated 0 0 k 0 0 0. Qed.
Lemma m20_dilate : m20 s (smul k x) (smul k y) = k * k * m20 s x y.
Proof. dilated 0 0 0 (k * k) 0 0. Qed.
Lemma m02_dilate : m02 s (smul k x) (smul k y) = k * k * m02 s x y.
Proof. dilated 0 0 0 0 0 (k * k). Qed.
Lemma m11_dilate : m11 s (smul k x) (smul k y) = k * k * m11 s x y.
Proof. dilated 0 0 0 0 (k * k) 0. Qed.

Lemma var_x_dilate : var_x s (smul k x) (smul k y) = k * k * var_x s x y.
Proof. unfold var_x. rewrite m20_dilate, m10_dilate. ring. Qed.
Lemma var_y_dilate : var_y s (smul k x) (smul k y) = k * k * var_y s x y.
Proof. unfold var_y. rewrite m02_dilate, m01_dilate. ring. Qed.
Lemma cov_xy_dilate : cov_xy s (smul k x) (smul k y) = k * k * cov_xy s x y.
Proof. unfold cov_xy. rewrite m11_dilate, m10_dilate, m01_dilate. ring. Qed.
End Dilation.

Lemma sqrt_dilate (k t : R) : 0 <= k -> sqrt (k * k * t) = k * sqrt t.
Proof.
  intros Hk. rewrite sqrt_mult_alt by nra. rewrite sqrt_square by exact Hk.
  reflexivity.
Qed.

Lemma spread_dilate (k A B C : R) :
  0 <= k -> spread (k * k * A) (k * k * B) (k * k * C) = k * k * spread A B C.
Proof.
  intros Hk. unfold spread.
  replace ((k * k * B - k * k * A) * (k * k * B - k * k * A)
           + 4 * (k * k * C) * (k * k * C))
    with ((k * k) * (k * k) * ((B - A) * (B - A) + 4 * C * C)) by ring.
  apply sqrt_dilate. nra.
Qed.

Lemma slope_dilate (k A B C : R) :
  0 < k -> slope (k * k * A) (k * k * B) (k * k * C) = slope A B C.
Proof.
  intros Hk. unfold slope. rewrite spread_dilate by lra.
  destruct (Req_dec C 0) as [-> | HC].
  - unfold Rdiv. rewrite !Rmult_0_r, Rinv_0. ring.
  - field. split; [ exact HC | nra ].
Qed.

(** X16: a change of the unit of length: multiplying all pixel coordinates by
    [k > 0] multiplies the centroid, [width], [length], [miss], [r] and
    the intercept [b] of [hillas_parameters], and the centroid, [width],
    [length], [distance] and [azwidth] of [hillas_parameters_2], by [k];
    the slope [a] and [size] do not change. *)
Theorem hillas_coordinate_scale (x y s : list R) (k : R) :
  valid_image x y s ->
  0 < k ->
  exists p p' h h',
    hillas_parameters x y s = Some p
    /\ hillas_parameters (smul k x) (smul k y) s = Some p'
    /\ hillas_parameters_2 x y s = Some h
    /\ hillas_parameters_2 (smul k x) (smul k y) s = Some h'
    /\ p_x p' = k * p_x p /\ p_y p' = k * p_y p
    /\ p_a p' = p_a p /\ p_b p' = k * p_b p
    /\ p_width p' = k * p_width p /\ p_length p' = k * p_length p
    /\ p_miss p' = k * p_miss p /\ p_r p' = k * p_r p
    /\ size h' = size h
    /\ cx h' = k * cx h /\ cy h' = k * cy h
    /\ width h' = k * width h /\ length h' = k * length h
    /\ distance h' = k * distance h /\ azwidth h' = k * azwidth h.
Proof.
  intros Hv Hk. destruct Hv as (Hx & Hy & Hw & Hs).
  assert (Hx' : List.length (smul k x) = List.length s)
    by (rewrite smul_length; exact Hx).
  assert (Hy' : List.length (smul k y) = List.length s)
    by (rewrite smul_length; exact Hy).
  destruct (hillas_parameters_fields x y s Hx Hy)
    as (p & Ep & Hpx & Hpy & Hpa & Hpb & Hpw & Hpl & Hpm & Hpr & _).
  destruct (hillas_parameters_fields _ _ s Hx' Hy')
    as (p' & Ep' & Hpx' & Hpy' & Hpa' & Hpb' & Hpw' & Hpl' & Hpm' & Hpr' & _).
  destruct (hillas_parameters_2_locals_fields x y s Hx Hy)
    as (l & El & Hsz & Hmo & Hvx & Hvy & _ & Hzz & Hwid & Hlen & Haz & _).
  destruct (hillas_parameters_2_locals_fields _ _ s Hx' Hy')
    as (l' & El' & Hsz' & Hmo' & Hvx' & Hvy' & _ & Hzz' & Hwid' & Hlen' & Haz' & _).
  destruct (hillas_parameters_2_of_locals x y s l El)
    as (h & Eh & Hhs & Hcx & Hcy & Hhw & Hhl & Hhaz & Hdi & _).
  destruct (hillas_parameters_2_of_locals _ _ s l' El')
    as (h' & Eh' & Hhs' & Hcx' & Hcy' & Hhw' & Hhl' & Hhaz' & Hdi' & _).
  exists p, p', h, h'.
  rewrite m10_dilate, m01_dilate, m20_dilate, m02_dilate, var_x_dilate,
    var_y_dilate, cov_xy_dilate in *.
  rewrite spread_dilate in Hzz' by lra.
  rewrite slope_dilate in Hpa' by exact Hk.
  assert (Ea : p_a p' = p_a p) by congruence.
  assert (Eb : p_b p' = k * p_b p) by (rewrite Hpb', Hpb, Ea; ring).
  assert (Ecx : cx h' = k * cx h) by (rewrite Hcx', Hcx, Hmo', Hmo; reflexivity).
  assert (Ecy : cy h' = k * cy h) by (rewrite Hcy', Hcy, Hmo', Hmo; reflexivity).
  assert (Hk0 : 0 <= k) by lra.
  repeat split; try assumption; try congruence.
  - rewrite Hpw', Hpw, <- sqrt_dilate by exact Hk0. f_equal.
    unfold width_2. rewrite slope_dilate by exact Hk. field.
    pose proof (slope_sqr_pos (var_x s x y) (var_y s x y) (cov_xy s x y)).
    cbv zeta in *. lra.
  - rewrite Hpl', Hpl, <- sqrt_dilate by exact Hk0. f_equal.
    unfold length_2. rewrite slope_dilate by exact Hk. field.
    pose proof (slope_sqr_pos (var_x s x y) (var_y s x y) (cov_xy s x y)).
    cbv zeta in *. lra.
  - rewrite Hpm', Hpm, Ea, Eb.
    replace (k * p_b p / (1 + p_a p * p_a p)) with (k * (p_b p / (1 + p_a p * p_a p)))
      by (unfold Rdiv; ring).
    rewrite Rabs_mult, (Rabs_pos_eq k) by exact Hk0. reflexivity.
  - rewrite Hpr', Hpr, <- sqrt_dilate by exact Hk0. f_equal. ring.
  - rewrite Hhw', Hwid', Hvx', Hvy', Hzz', Hhw, Hwid, Hvx, Hvy, Hzz,
      <- sqrt_dilate by exact Hk0. f_equal. ring.
  - rewrite Hhl', Hlen', Hvx', Hvy', Hzz', Hhl, Hlen, Hvx, Hvy, Hzz,
      <- sqrt_dilate by exact Hk0. f_equal. ring.
  - rewrite Hdi', Ecx, Ecy, Hdi. cbn [np_hypot R_libm].
    rewrite <- sqrt_dilate by exact Hk0. f_equal. ring.
  - rewrite Hhaz', Haz', Hzz', Hhaz, Haz, Hzz, <- sqrt_dilate by exact Hk0.
    f_equal. ring.
Qed.

Lemma hillas_coordinate_scale_witness :
  exists p p' h h',
    hillas_parameters [0; 0; 3] [0; 3; 3] [1; 1; 1] = Some p
    /\ hillas_parameters (smul 2 [0; 0; 3]) (smul 2 [0; 3; 3]) [1; 1; 1] = Some p'
    /\ hillas_parameters_2 [0; 0; 3] [0; 3; 3] [1; 1; 1] = Some h
    /\ hillas_parameters_2 (smul 2 [0; 0; 3]) (smul 2 [0; 3; 3]) [1; 1; 1] = Some h'
    /\ p_x p' = 2 * p_x p /\ p_y p' = 2 * p_y p
    /\ p_a p' = p_a p /\ p_b p' = 2 * p_b p
    /\ p_width p' = 2 * p_width p /\ p_length p' = 2 * p_length p
    /\ p_miss p' = 2 * p_miss p /\ p_r p' = 2 * p_r p
    /\ size h' = size h
    /\ cx h' = 2 * cx h /\ cy h' = 2 * cy h
    /\ width h' = 2 * width h /\ length h' = 2 * length h
    /\ distance h' = 2 * distance h /\ azwidth h' = 2 * azwidth h.
Proof.
  apply (hillas_coordinate_scale [0; 0; 3] [0; 3; 3] [1; 1; 1] 2).
  - exact triangle_valid.
  - lra.
Defined.
End HillasExactMore.

(** * Further binary64 properties of the Hillas routines *)

Section HillasFloatMore.
Import Hillas.
Local Open Scope float_scope.

Lemma non_finite_is_finite (x : float) : non_finite x -> is_finite x = false.
Proof.
  intros C. unfold is_finite, is_nan, is_infinity.
  rewrite !FloatAxioms.eqb_spec, abs_spec.
  destruct C as [-> | [[|] ->]]; reflexivity.
Qed.

Lemma non_finite_nan : non_finite nan.
Proof. left. reflexivity. Qed.

Lemma div_zero_non_finite (n d : float) : is_zero d = true -> non_finite (n / d).
Proof.
  intros Hd. unfold non_finite. rewrite div_spec.
  destruct (is_zero_cases d Hd) as [-> | ->];
    destruct (Prim2SF n) as [b | b | | b m e]; cbn; eauto.
Qed.

Ltac nf_cases a Ha y :=
  unfold non_finite in *;
  destruct Ha as [Ha | [ba Ha]]; rewrite Ha;
  destruct (Prim2SF y) as [b | b | | b m e]; cbn;
  try destruct ba; try destruct b; cbn; eauto.

Lemma nf_mul_l (a y : float) : non_finite a -> non_finite (a * y).
Proof. intros Ha. unfold non_finite at 1. rewrite mul_spec. nf_cases a Ha y. Qed.

Lemma nf_mul_r (x a : float) : non_finite a -> non_finite (x * a).
Proof. intros Ha. unfold non_finite at 1. rewrite mul_spec. nf_cases a Ha x. Qed.

Lemma nf_add_l (a y : float) : non_finite a -> non_finite (a + y).
Proof. intros Ha. unfold non_finite at 1. rewrite add_spec. nf_cases a Ha y. Qed.

Lemma nf_add_r (x a : float) : non_finite a -> non_finite (x + a).
Proof. intros Ha. unfold non_finite at 1. rewrite add_spec. nf_cases a Ha x. Qed.

Lemma nf_sub_r (x a : float) : non_finite a -> non_finite (x - a).
Proof. intros Ha. unfold non_finite at 1. rewrite sub_spec. nf_cases a Ha x. Qed.

Lemma nf_sqrt (a : float) : non_finite a -> non_finite (PrimFloat.sqrt a).
Proof.
  intros Ha. unfold non_finite in *. rewrite sqrt_spec.
  destruct Ha as [-> | [[|] ->]]; cbn; eauto.
Qed.

Lemma nf_div_nf (n d : float) : non_finite n -> non_finite d -> n / d = nan.
Proof.
  intros Hn Hd. apply eq_nan_SF. rewrite div_spec. unfold non_finite in *.
  destruct Hn as [-> | [bn ->]]; destruct Hd as [-> | [bd ->]]; reflexivity.
Qed.

Lemma is_zero_double (z : float) : is_zero z = true -> is_zero (2 * z) = true.
Proof. intros Hz. destruct (is_zero_cases z Hz) as [-> | ->]; reflexivity. Qed.

(** With a slope [a] that is not finite, the quotients by [1 + a * a] are
    quotients of two non-finite numbers. *)
Lemma width_core (a Sxx Syy Sxy : float) :
  non_finite a ->
  PrimFloat.sqrt ((Syy + a * a * Sxx - 2 * a * Sxy) / (1 + a * a)) = nan.
Proof.
  intros Ha. rewrite nf_div_nf; [ reflexivity | | ].
  - apply nf_sub_r, nf_mul_l, nf_mul_r, Ha.
  - apply nf_add_r, nf_mul_l, Ha.
Qed.

Lemma length_core (a Sxx Syy Sxy : float) :
  non_finite a ->
  PrimFloat.sqrt ((Sxx + a * a * Syy + 2 * a * Sxy) / (1 + a * a)) = nan.
Proof.
  intros Ha. rewrite nf_div_nf; [ reflexivity | | ].
  - apply nf_add_r, nf_mul_l, nf_mul_r, Ha.
  - apply nf_add_r, nf_mul_l, Ha.
Qed.

Lemma miss_core (a m_x m_y : float) :
  non_finite a -> abs ((m_y - a * m_x) / (1 + a * a)) = nan.
Proof.
  intros Ha. rewrite nf_div_nf; [ reflexivity | | ].
  - apply nf_sub_r, nf_mul_l, Ha.
  - apply nf_add_r, nf_mul_l, Ha.
Qed.

(** X17: when the covariance [S_xy] that [hillas_parameters] computes is zero
    (an image whose axes are parallel to the coordinate axes), the slope
    [a] is a quotient by zero, and the function returns a result in which
    [a] is NaN or infinite and [width], [length] and [miss] are NaN. *)
Theorem hillas_parameters_zero_covariance (x y s : list float) :
  List.length x = List.length s ->
  List.length y = List.length s ->
  is_zero (np_sum (vmul (vmul s x) y) / np_sum s
           - np_sum (vmul s x) / np_sum s * (np_sum (vmul s y) / np_sum s)) = true ->
  exists p,
    hillas_parameters x y s = Some p
    /\ is_finite (p_a p) = false
    /\ is_nan (p_width p) = true
    /\ is_nan (p_length p) = true
    /\ is_nan (p_miss p) = true.
Proof.
  intros Sx Sy Hz. unfold hillas_parameters.
  rewrite (same_shape_ok _ _ Sx), (same_shape_ok _ _ Sy). cbn [negb].
  eexists. split; [ reflexivity | ].
  cbn [p_a p_width p_length p_miss add sub mul div np_sqrt np_abs one two four
       f64_scalar].
  match goal with |- is_finite ?a = false /\ _ => set (av := a) end.
  assert (Ha : non_finite av).
  { unfold av. apply div_zero_non_finite, is_zero_double. exact Hz. }
  rewrite width_core, length_core, miss_core by exact Ha.
  repeat split. apply non_finite_is_finite. exact Ha.
Qed.

Lemma hillas_parameters_zero_covariance_witness :
  exists p,
    hillas_parameters [0; 1; 2] [0; 0; 0] [10; 1; 1] = Some p
    /\ is_finite (p_a p) = false
    /\ is_nan (p_width p) = true
    /\ is_nan (p_length p) = true
    /\ is_nan (p_miss p) = true.
Proof.
  apply (hillas_parameters_zero_covariance [0; 1; 2] [0; 0; 0] [10; 1; 1]);
    reflexivity.
Defined.

(** X18: when [zz] is zero in [hillas_parameters_2] (an image with equal
    variances and no covariance), the quotient by [zz] in [miss] is a
    quotient by zero and [miss] is NaN or infinite. *)
Theorem hillas_parameters_2_circular (x y s : list float) (l : locals_2 float) :
  hillas_parameters_2_locals x y s = Some l ->
  is_zero (l_zz l) = true ->
  is_finite (l_miss l) = false.
Proof.
  unfold hillas_parameters_2_locals.
  destruct (negb (same_shape x s)); [ discriminate | ].
  destruct (negb (same_shape y s)); [ discriminate | ].
  intros E. injection E as <-. cbn [l_zz l_miss]. intros Hz.
  cbn [add sub mul div np_sqrt one two four f64_scalar] in *.
  apply non_finite_is_finite, nf_sqrt, nf_sub_r, div_zero_non_finite. exact Hz.
Qed.

Lemma hillas_parameters_2_circular_witness :
  exists l,
    hillas_parameters_2_locals [1; -1; 0; 0] [0; 0; 1; -1] [1; 1; 1; 1] = Some l
    /\ is_zero (l_zz l) = true
    /\ is_finite (l_miss l) = false.
Proof.
  eexists. split; [ vm_compute; reflexivity | ].
  split; [ reflexivity | ].
  apply (hillas_parameters_2_circular [1; -1; 0; 0] [0; 0; 1; -1] [1; 1; 1; 1]);
    reflexivity.
Defined.
(** In binary64 the translation invariance of [width] holds up to
    rounding only: moving the image with pixels (1,4) and (2,5) of
    intensity 3 and 2 by (-1,-4) changes the [width] of
    [hillas_parameters_2] from NaN to 0. *)
Lemma hillas_translation_rounding :
  exists l l',
    hillas_parameters_2_locals [1; 2] [4; 5] [3; 2] = Some l
    /\ hillas_parameters_2_locals (vadds [1; 2] (-1)) (vadds [4; 5] (-4)) [3; 2]
       = Some l'
    /\ is_nan (l_width l) = true
    /\ l_width l' = 0.
Proof.
  eexists. eexists. split; [ vm_compute; reflexivity | ].
  split; [ vm_compute; reflexivity | ].
  split; reflexivity.
Qed.
End HillasFloatMore.
